(** * A Multinomial Naive Bayes spam filter (naive_bayes_spam_filter.ipynb)

    The notebook trains two tables of smoothed word likelihoods from a
    labelled collection of SMS texts and classifies a new message by
    comparing two products of probabilities.  This development embeds the
    notebook's cells as functions and proves the properties its
    specification states.

    Conventions of the embedding:
    - a Python [str] is a list of Unicode code points ([list N]);
    - the three services the notebook takes from the Python runtime and
      that consult the Unicode database (the regular-expression class
      [\W], [str.lower] and the white-space test of [str.split]) are the
      fields of the class [Unicode];
    - Python [int] and numpy [int64] counts are [Z] (a count of tokens of
      data held in memory stays far below 2^63, so [int64] never wraps);
    - the numbers the notebook computes with [/], [*] and [>] are the
      carrier of the class [Arith]; the instance [binary64] is the
      arithmetic of Python's floats, the instance [Q_arith] evaluates the
      same expressions in exact rational arithmetic;
    - a Python exception is the [Raise] outcome of the type [result]. *)

From Stdlib Require Import ZArith QArith Ascii String Floats Uint63.
From stdpp Require Import gmap strings list fin_maps.

Local Open Scope Z_scope.

(** ** Text *)

Abbreviation char := N (only parsing).
Abbreviation str := (list N) (only parsing).

(** An ASCII literal as a Python [str]. *)
Definition py (s : string) : str :=
  (λ a, N_of_ascii a) <$> list_ascii_of_string s.

Class Unicode := {
  (** [re]'s [\w]: [str.isalnum()] or the underscore *)
  is_word : char → bool;
  (** the white-space test of [str.split()] *)
  is_space : char → bool;
  (** [str.lower()] on one character, given the characters before and
      after it (CPython's [lower_ucs4]: only the capital sigma looks at
      its neighbours); the full mapping may yield several characters *)
  tolower : str → char → str → str
}.

Section Tokenizer.
Context {U : Unicode}.

(** [re.sub("\W", " ", message)]: every character matched by [\W] is
    replaced by one space. *)
Definition re_sub_W (message : str) : str :=
  (λ c, if is_word c then c else 32%N) <$> message.

(** [str.lower()]. *)
Fixpoint lower_from (before s : str) : str :=
  match s with
  | [] => []
  | c :: after => tolower before c after ++ lower_from (before ++ [c]) after
  end.

Definition lower (s : str) : str := lower_from [] s.

(** [str.split()] without arguments: the maximal runs of characters that
    are not white space, in order; no empty string is produced. *)
Definition starts_word (s : str) : bool :=
  match s with
  | c :: _ => negb (is_space c)
  | [] => false
  end.

Fixpoint split (s : str) : list str :=
  match s with
  | [] => []
  | c :: s' =>
      if is_space c then split s'
      else match split s' with
           | w :: ws => if starts_word s' then (c :: w) :: ws
                        else [c] :: w :: ws
           | [] => [[c]]
           end
  end.

(** The cleaning line of [classify]:
    [re.sub("\W", " ", message).lower().split()]. *)
Definition tokenize (message : str) : list str :=
  split (lower (re_sub_W message)).

(** *** The two library calls behind the cleaning

    [classify] calls [re.sub] itself; the training cell calls pandas'
    [Series.str.replace], which chooses between [re] and Python's own
    [str.replace].  Both calls are modelled on the patterns of one atom:
    the notebook's [\W] and, to show where the two calls part, the dot. *)
Inductive atom :=
  | NonWord  (** [\W] *)
  | AnyChar. (** [.] *)

(** The pattern as the string that is passed to the library. *)
Definition source (pat : atom) : str :=
  match pat with
  | NonWord => py "\W"
  | AnyChar => py "."
  end.

(** The characters the pattern matches as a regular expression (the dot
    matches everything but the line feed). *)
Definition atom_matches (pat : atom) (c : char) : bool :=
  match pat with
  | NonWord => negb (is_word c)
  | AnyChar => negb (c =? 10)%N
  end.

(** Both substitutions take a bound on the number of replacements; here
    [None] is no bound. *)
Definition exhausted (limit : option nat) : bool :=
  match limit with
  | Some O => true
  | _ => false
  end.

Definition spend (limit : option nat) : option nat :=
  match limit with
  | Some (S k) => Some k
  | _ => limit
  end.

(** [re.sub(pat, repl, s, count)] and the method [sub] of the compiled
    pattern, for a replacement without backslash: the matches, here the
    matching characters, are replaced from left to right; [count = 0], the
    default, replaces all of them, a positive [count] the first [count]. *)
Fixpoint re_sub_upto (limit : option nat) (pat : atom) (repl s : str) : str :=
  match s with
  | [] => []
  | c :: s' =>
      if atom_matches pat c && negb (exhausted limit)
      then repl ++ re_sub_upto (spend limit) pat repl s'
      else c :: re_sub_upto limit pat repl s'
  end.

Definition re_sub (pat : atom) (repl s : str) (count : nat) : str :=
  re_sub_upto (match count with O => None | S _ => Some count end) pat repl s.

(** Python's [s.replace(old, new, count)]: the occurrences of the
    substring [old], found from left to right without overlap, are
    replaced; a negative [count], the default, replaces all of them,
    another [count] the first [count].  An empty [old] matches before
    every character and at the end. *)
Fixpoint starts_with (old s : str) : bool :=
  match old, s with
  | [], _ => true
  | o :: old', c :: s' => (o =? c)%N && starts_with old' s'
  | _ :: _, [] => false
  end.

Fixpoint replace_from (skip : nat) (limit : option nat) (old new s : str)
    : str :=
  match s with
  | [] => []
  | c :: s' =>
      match skip with
      | S skip' => replace_from skip' limit old new s'
      | O => if starts_with old s && negb (exhausted limit)
             then new ++ replace_from (length old - 1) (spend limit) old new s'
             else c :: replace_from 0 limit old new s'
      end
  end.

Fixpoint interleave (limit : option nat) (new s : str) : str :=
  if exhausted limit then s
  else new ++ match s with
              | [] => []
              | c :: s' => c :: interleave (spend limit) new s'
              end.

Definition py_replace (old new : str) (count : Z) (s : str) : str :=
  let limit := if count <? 0 then None else Some (Z.to_nat count) in
  match old with
  | [] => interleave limit new s
  | _ :: _ => replace_from 0 limit old new s
  end.

(** pandas' [Series.str.replace(pat, repl, n, case=None, flags=0, regex)]
    on a column of strings, for a pattern and a replacement that are
    strings, as pandas implements it before its version 2 ([str_replace]
    in [pandas/core/strings.py]):
[[
    if regex:
        if is_compiled_re or len(pat) > 1 or flags or callable(repl):
            n = n if n >= 0 else 0
            compiled = re.compile(pat, flags=flags)
            f = lambda x: compiled.sub(repl=repl, string=x, count=n)
        else:
            f = lambda x: x.replace(pat, repl, n)
    else:
        f = lambda x: x.replace(pat, repl, n)
    return _na_map(f, arr)
]]
    With [regex=True] a pattern of more than one character goes to [re];
    a pattern of one character, and every pattern with [regex=False], is
    taken literally and goes to [str.replace]. *)
Definition Series_str_replace (pat : atom) (repl : str) (n : Z)
    (regex : bool) (col : list str) : list str :=
  if regex then
    if (1 <? length (source pat))%nat then
      let n := if 0 <=? n then n else 0 in
      (λ x, re_sub pat repl x (Z.to_nat n)) <$> col
    else (λ x, py_replace (source pat) repl n x) <$> col
  else (λ x, py_replace (source pat) repl n x) <$> col.

(** The defaults of [n] and [regex] in the pandas the notebook ran with
    (Python 3.7.4; the recorded token lists have the punctuation
    removed). *)
Definition n_default : Z := -1.
Definition regex_default : bool := true.

(** The cleaning of the training column (cell "Data clean"): pandas
    applies each string method to every element of the column,
    [train['SMS'].str.replace('\W', ' ')] then [.str.lower()] then
    [.str.split()]; the last two call Python's [lower()] and [split()] on
    each element. *)
Definition str_replace_W (col : list str) : list str :=
  Series_str_replace NonWord (py " ") n_default regex_default col.
Definition str_lower (col : list str) : list str := lower <$> col.
Definition str_split (col : list str) : list (list str) := split <$> col.

Definition clean_column (col : list str) : list (list str) :=
  str_split (str_lower (str_replace_W col)).

End Tokenizer.

(** The Unicode database on the Latin-1 block (code points 0..255) and on
    the two code points U+0130 (capital I with dot above) and U+0307
    (combining dot above), as CPython answers there.  No statement below
    evaluates it on another code point. *)
Definition in_range (lo hi c : N) : bool := ((lo <=? c) && (c <=? hi))%N.

Definition ucd_is_word (c : char) : bool :=
  in_range 48 57 c || in_range 65 90 c || (c =? 95)%N || in_range 97 122 c
  || (c =? 170)%N || in_range 178 179 c || (c =? 181)%N || in_range 185 186 c
  || in_range 188 190 c || in_range 192 214 c || in_range 216 246 c
  || in_range 248 255 c || (c =? 304)%N.

Definition ucd_is_space (c : char) : bool :=
  in_range 9 13 c || in_range 28 32 c || (c =? 133)%N || (c =? 160)%N.

Definition ucd_is_upper (c : char) : bool :=
  in_range 65 90 c || in_range 192 214 c || in_range 216 222 c || (c =? 304)%N.

Definition ucd_tolower (before : str) (c : char) (after : str) : str :=
  if in_range 65 90 c || in_range 192 214 c || in_range 216 222 c
  then [(c + 32)%N]
  else if (c =? 304)%N then [105%N; 775%N]
  else [c].

#[export] Instance ucd : Unicode :=
  {| is_word := ucd_is_word; is_space := ucd_is_space; tolower := ucd_tolower |}.

(** ** Numbers and exceptions *)

(** The arithmetic the notebook uses on probabilities.  In Python the
    carrier is the binary64 float and [/] rounds; what is proved for an
    arbitrary instance holds however the operations round. *)
Class Arith := {
  num : Type;
  (** an [int] stored where later a float is stored *)
  of_int : Z → num;
  (** [a / b] on two integers *)
  true_div : Z → Z → num;
  (** [x * y] *)
  mul : num → num → num;
  (** [x > y] *)
  gt : num → num → bool
}.

Inductive exn := ZeroDivisionError | KeyError | IndexError.

Inductive result (A : Type) :=
  | Ok (a : A)
  | Raise (e : exn).
Arguments Ok {A} a.
Arguments Raise {A} e.

#[export] Instance result_ret : MRet result := @Ok.
#[export] Instance result_bind : MBind result := λ A B f m,
  match m with
  | Ok a => f a
  | Raise e => Raise e
  end.

(** A [for] loop whose body may raise: the state is threaded through the
    iterations and the first exception ends the loop. *)
Fixpoint for_each {S A : Type} (body : S → A → result S) (l : list A)
    (s : S) : result S :=
  match l with
  | [] => Ok s
  | x :: l' => s' ← body s x; for_each body l' s'
  end.

(** [a / b] on two Python [int]s. *)
Definition py_div {A : Arith} (a b : Z) : result num :=
  if b =? 0 then Raise ZeroDivisionError else Ok (true_div a b).

(** [Series.sum()] on a column of integers. *)
Fixpoint Zsum (col : list Z) : Z :=
  match col with
  | [] => 0
  | n :: col' => n + Zsum col'
  end.

(** [df[mask]]: the rows of a column whose mask entry is [True]. *)
Fixpoint select {A : Type} (mask : list bool) (col : list A) : list A :=
  match mask, col with
  | b :: mask', x :: col' =>
      if b then x :: select mask' col' else select mask' col'
  | _, _ => []
  end.

(** [{k: f(k) for k in keys}] *)
Definition dict_comp {V : Type} (f : str → V) (keys : list str) : gmap str V :=
  foldl (λ d k, <[k := f k]> d) ∅ keys.

(** [enumerate(col)] *)
Definition enumerate {A : Type} (col : list A) : list (nat * A) :=
  zip (seq 0 (length col)) col.

(** ** Training (cells "Data clean" to "Calculate parameters") *)

Section Training.
Context {U : Unicode} {A : Arith}.

(** What [classify] reads: the two priors and the two parameter tables. *)
Record Model := {
  p_ham : num;
  p_spam : num;
  parameters_ham : gmap str num;
  parameters_spam : gmap str num
}.

(** [vocabulary = []] followed by the two nested loops that append every
    word of every row. *)
Definition collect_words (sms : list (list str)) : list str :=
  foldl (λ vocabulary row, foldl (λ vocabulary word, vocabulary ++ [word])
                                 vocabulary row) [] sms.

(** [list(set(vocabulary))]: the distinct words, in the order in which the
    set happens to be iterated. *)
Definition unique (vocabulary : list str) : list str :=
  elements (list_to_set vocabulary : gset str).

(** [word_counts_per_sms[word][index] += 1]: the dictionary lookup raises
    [KeyError] for a missing word and the list access raises [IndexError]
    out of range.  Every key owns its own list (each [[0] * n] of the
    comprehension is a new object), so the update touches one column. *)
Definition increment (word_counts_per_sms : gmap str (list Z)) (word : str)
    (index : nat) : result (gmap str (list Z)) :=
  match word_counts_per_sms !! word with
  | None => Raise KeyError
  | Some col =>
      match col !! index with
      | None => Raise IndexError
      | Some n => Ok (<[word := <[index := n + 1]> col]> word_counts_per_sms)
      end
  end.

Definition count_words (vocabulary : list str) (sms : list (list str))
  : result (gmap str (list Z)) :=
  for_each (λ d '(index, row), for_each (λ d word, increment d word index) row d)
           (enumerate sms)
           (dict_comp (λ _, replicate (length sms) 0) vocabulary).

(** [df[word].sum()] on the rows selected by [mask]; a frame without that
    column raises [KeyError].  The word columns are kept apart from the
    columns [Label] and [SMS] of the frame: both names have capital
    letters, which [str.lower] leaves in no word. *)
Definition column_sum (word_counts : gmap str (list Z)) (mask : list bool)
    (word : str) : result Z :=
  match word_counts !! word with
  | None => Raise KeyError
  | Some col => Ok (Zsum (select mask col))
  end.

(** The body of the loop of the cell "Calculate parameters". *)
Definition set_parameters (alpha : Z) (word_counts : gmap str (list Z))
    (ham_rows spam_rows : list bool)
    (n_vocab_given_ham n_vocab_given_spam n_vocab_total : Z)
    (parameters : gmap str num * gmap str num) (word : str)
  : result (gmap str num * gmap str num) :=
  n_word_given_ham ← column_sum word_counts ham_rows word;
  let p_word_given_ham :=
    true_div (n_word_given_ham + alpha)
             (n_vocab_given_ham + alpha * n_vocab_total) in
  let parameters_ham := <[word := p_word_given_ham]> parameters.1 in
  n_word_given_spam ← column_sum word_counts spam_rows word;
  let p_word_given_spam :=
    true_div (n_word_given_spam + alpha)
             (n_vocab_given_spam + alpha * n_vocab_total) in
  let parameters_spam := <[word := p_word_given_spam]> parameters.2 in
  Ok (parameters_ham, parameters_spam).

(** The training cells in the order in which the notebook runs them, on
    the frame [train] given by its rows [(Label, SMS)].  The notebook sets
    [alpha = 1] (see [alpha_notebook]). *)
Definition fit (alpha : Z) (train : list (str * str)) : result Model :=
  (* Data clean *)
  let Label := train.*1 in
  let SMS := clean_column (train.*2) in
  let vocabulary := unique (collect_words SMS) in
  word_counts_per_sms ← count_words vocabulary SMS;
  (* Split dataframes by label *)
  let ham_rows := (λ l, bool_decide (l = py "ham")) <$> Label in
  let spam_rows := (λ l, bool_decide (l = py "spam")) <$> Label in
  (* Calculate constants *)
  let rows := Z.of_nat (length train) in
  p_ham ← py_div (Z.of_nat (length (select ham_rows Label))) rows;
  p_spam ← py_div (Z.of_nat (length (select spam_rows Label))) rows;
  let n_vocab_total := Z.of_nat (length vocabulary) in
  let n_vocab_given_spam :=
    Zsum ((λ row, Z.of_nat (length row)) <$> select spam_rows SMS) in
  let n_vocab_given_ham :=
    Zsum ((λ row, Z.of_nat (length row)) <$> select ham_rows SMS) in
  (* Calculate parameters *)
  parameters ←
    for_each (set_parameters alpha word_counts_per_sms ham_rows spam_rows
                n_vocab_given_ham n_vocab_given_spam n_vocab_total)
             vocabulary
             (dict_comp (λ _, of_int 0) vocabulary,
              dict_comp (λ _, of_int 0) vocabulary);
  Ok {| p_ham := p_ham; p_spam := p_spam;
        parameters_ham := parameters.1; parameters_spam := parameters.2 |}.

Definition alpha_notebook : Z := 1.

(** ** Classification (cell "Classification function") *)

(** One iteration of the loop over the words of the message: two
    independent membership tests, each guarding one multiplication. *)
Definition adjust (M : Model) (scores : num * num) (word : str) : num * num :=
  let p_ham_given_message :=
    match parameters_ham M !! word with
    | Some p => mul scores.1 p
    | None => scores.1
    end in
  let p_spam_given_message :=
    match parameters_spam M !! word with
    | Some p => mul scores.2 p
    | None => scores.2
    end in
  (p_ham_given_message, p_spam_given_message).

(** The pair (ham score, spam score) after the loop. *)
Definition scores (M : Model) (message : str) : num * num :=
  foldl (adjust M) (p_ham M, p_spam M) (tokenize message).

Definition classify (M : Model) (message : str) : str :=
  let '(p_ham_given_message, p_spam_given_message) := scores M message in
  if gt p_spam_given_message p_ham_given_message then py "spam" else py "ham".

End Training.

Arguments Model {_}.

(** Exact rational arithmetic.  A quotient by 0, which numpy answers with
    [inf] or [nan], has no counterpart here; the statements proved with
    this instance keep every divisor different from 0. *)
#[export] Instance Q_arith : Arith := {|
  num := Q;
  of_int := inject_Z;
  true_div a b := (inject_Z a / inject_Z b)%Q;
  mul := Qmult;
  gt x y := negb (Qle_bool x y)
|}.

(** The arithmetic of the notebook: IEEE 754 binary64, rounding to
    nearest.  An integer below 2^63 in magnitude is converted as numpy
    converts an [int64]. *)
Definition float_of_Z (z : Z) : float :=
  match z with
  | Z0 => 0%float
  | Zpos _ => PrimFloat.of_uint63 (Uint63.of_Z z)
  | Zneg _ => PrimFloat.opp (PrimFloat.of_uint63 (Uint63.of_Z (- z)))
  end.

#[export] Instance binary64 : Arith | 10 := {|
  num := float;
  of_int := float_of_Z;
  true_div a b := PrimFloat.div (float_of_Z a) (float_of_Z b);
  mul := PrimFloat.mul;
  gt x y := PrimFloat.ltb y x
|}.

(** The comparison [==] next to [>], with the two laws of [>] that the
    decision of [classify] rests on. *)
Class ArithOrder (A : Arith) := {
  eqn : num → num → bool;
  gt_eqn : ∀ x y, eqn x y = true → gt x y = false;
  gt_asym : ∀ x y, gt x y = true → gt y x = false
}.

(** The signs [classify] can rely on.  [null] holds of the numbers a
    product cannot leave: zero and, in binary64, not-a-number;
    [not_negative] of the numbers that are not below zero. *)
Class ArithSign (A : Arith) := {
  null : num → bool;
  not_negative : num → bool;
  true_div_null : ∀ b, null (true_div 0 b) = true;
  mul_null : ∀ x y, null x = true → null (mul x y) = true;
  true_div_not_negative : ∀ a b,
    0 ≤ a → 0 ≤ b → not_negative (true_div a b) = true;
  mul_not_negative : ∀ x y,
    not_negative x = true → not_negative y = true →
    not_negative (mul x y) = true;
  gt_null : ∀ x y, null x = true → not_negative y = true → gt x y = false
}.

Definition SF_null (x : spec_float) : bool :=
  match x with
  | S754_zero _ | S754_nan => true
  | _ => false
  end.

Definition SF_not_negative (x : spec_float) : bool :=
  match x with
  | S754_nan => true
  | S754_zero s | S754_infinity s | S754_finite s _ _ => negb s
  end.

(** ** The quantities of the specification *)

Section Quantities.
Context {U : Unicode} {A : Arith}.

(** Number of occurrences of a token in a token sequence. *)
Definition occurrences (t : str) (tokens : list str) : Z :=
  Z.of_nat (length (filter (λ x, x = t) tokens)).

(** The training examples: (Label, ordered sequence of Token). *)
Definition examples (train : list (str * str)) : list (str * list str) :=
  (λ ex, (ex.1, tokenize ex.2)) <$> train.

(** The token sequences of the examples labelled [L]. *)
Definition labelled (L : str) (train : list (str * str)) : list (list str) :=
  (filter (λ ex, ex.1 = L) (examples train)).*2.

(** The set of distinct tokens over all training examples. *)
Definition Vocabulary (train : list (str * str)) : gset str :=
  list_to_set (concat (examples train).*2).

Definition token_count (train : list (str * str)) (L t : str) : Z :=
  occurrences t (concat (labelled L train)).

Definition total_tokens (train : list (str * str)) (L : str) : Z :=
  Zsum ((λ tokens, Z.of_nat (length tokens)) <$> labelled L train).

Definition example_count (train : list (str * str)) (L : str) : Z :=
  Z.of_nat (length (labelled L train)).

Definition prior (train : list (str * str)) (L : str) : num :=
  true_div (example_count train L) (Z.of_nat (length train)).

Definition likelihood (alpha : Z) (train : list (str * str)) (L t : str) : num :=
  true_div (token_count train L t + alpha)
           (total_tokens train L + alpha * Z.of_nat (size (Vocabulary train))).

(** What training on [train] produces, in the words of the specification. *)
Definition trained (alpha : Z) (train : list (str * str)) (M : Model) : Prop :=
  p_ham M = prior train (py "ham") ∧
  p_spam M = prior train (py "spam") ∧
  (∀ t, parameters_ham M !! t =
        if decide (t ∈ Vocabulary train)
        then Some (likelihood alpha train (py "ham") t) else None) ∧
  (∀ t, parameters_spam M !! t =
        if decide (t ∈ Vocabulary train)
        then Some (likelihood alpha train (py "spam") t) else None).

(** The final score of label [L] as the specification describes it: start
    from the prior of [L] and multiply by the smoothed likelihood of every
    token of the message that is in the vocabulary, once per occurrence. *)
Definition score (alpha : Z) (train : list (str * str)) (L message : str) : num :=
  foldl mul (prior train L)
        (likelihood alpha train L
           <$> filter (λ t, t ∈ Vocabulary train) (tokenize message)).

(** The column of a word after the rows [rows], numbered from [k], have
    been counted into it. *)
Fixpoint add_rows (w : str) (k : nat) (rows : list (list str)) (col : list Z)
  : list Z :=
  match rows with
  | [] => col
  | row :: rows' =>
      add_rows w (S k) rows' (alter (Z.add (occurrences w row)) k col)
  end.

End Quantities.

(** ** Exact sums *)

Fixpoint Qsum (l : list Q) : Q :=
  match l with
  | [] => 0
  | q :: l' => q + Qsum l'
  end%Q.

(** The sum of the entries of a likelihood table over its key set, the
    vocabulary of the model. *)
Definition likelihood_sum (table : gmap str Q) : Q :=
  Qsum ((λ t, default 0%Q (table !! t)) <$> elements (dom table)).

(** ** The Latin-1 block *)

(** The three facts about the table that the tokens of Latin-1 text rest
    on, checked on each of the 256 code points. *)
Definition latin1_char_ok (c : N) : bool :=
  let blank := if ucd_is_word c then c else 32%N in
  forallb (λ c', (c' =? 32)%N && ucd_is_space c'
                 || ucd_is_word c' && negb (ucd_is_upper c')
                    && negb (ucd_is_space c'))
          (ucd_tolower [] blank []).

Definition blank_or_word (c : N) : Prop :=
  c = 32%N ∧ ucd_is_space c = true
  ∨ ucd_is_word c = true ∧ ucd_is_upper c = false ∧ ucd_is_space c = false.

(** ** Small training collections *)

(** A small training collection, trained in exact arithmetic with the
    notebook's [alpha]; the theorems below are instantiated on it. *)
Definition sample : list (str * str) :=
  [ (py "ham", py "Hello there, hello!");
    (py "spam", py "WIN a prize now");
    (py "ham", py "see you there") ].

Definition sample_model : @Model Q_arith := Eval vm_compute in
    match fit alpha_notebook sample with
    | Ok M => M
    | Raise _ => {| p_ham := 0%Q; p_spam := 0%Q;
                    parameters_ham := ∅; parameters_spam := ∅ |}
    end.

(** A collection with one example per label: equal priors. *)
Definition balanced : list (str * str) :=
  [ (py "ham", py "hi"); (py "spam", py "yo") ].

(** The same collection trained in binary64. *)
Definition balanced_binary64 : @Model binary64 := Eval vm_compute in
    match fit (A := binary64) alpha_notebook balanced with
    | Ok M => M
    | Raise _ => @Build_Model binary64 0%float 0%float ∅ ∅
    end.

Definition balanced_model : @Model Q_arith := Eval vm_compute in
    match fit alpha_notebook balanced with
    | Ok M => M
    | Raise _ => {| p_ham := 0%Q; p_spam := 0%Q;
                    parameters_ham := ∅; parameters_spam := ∅ |}
    end.

(** A collection without any ham example, trained in binary64 and in
    exact arithmetic. *)
Definition spam_only : list (str * str) := [ (py "spam", py "yo hi") ].

Definition spam_only_binary64 : @Model binary64 := Eval vm_compute in
    match fit (A := binary64) alpha_notebook spam_only with
    | Ok M => M
    | Raise _ => @Build_Model binary64 0%float 0%float ∅ ∅
    end.

Definition spam_only_model : @Model Q_arith := Eval vm_compute in
    match fit alpha_notebook spam_only with
    | Ok M => M
    | Raise _ => {| p_ham := 0%Q; p_spam := 0%Q;
                    parameters_ham := ∅; parameters_spam := ∅ |}
    end.

(** A collection on which two scores come within one unit in the last
    place of each other. *)
Definition close_call : list (str * str) :=
  [ (py "ham", py "a a"); (py "spam", py "d f d"); (py "spam", py "b g");
    (py "spam", py "e c f f"); (py "spam", py "b d") ].

Definition close_call_binary64 : @Model binary64 := Eval vm_compute in
    match fit (A := binary64) alpha_notebook close_call with
    | Ok M => M
    | Raise _ => @Build_Model binary64 0%float 0%float ∅ ∅
    end.

(** ** The cells around training: duplicates, the split, the evaluation *)

(** [Series.sum()] on a Boolean column: the number of [True]. *)
Definition count_true (mask : list bool) : Z :=
  Zsum ((λ b : bool, if b then 1 else 0) <$> mask).

(** [df.duplicated()] on the frame given by its rows [(Label, SMS)]: a row
    is flagged when an equal row stands earlier in the frame (pandas'
    default [keep='first']). *)
Fixpoint duplicated_from (seen : gset (str * str)) (df : list (str * str))
  : list bool :=
  match df with
  | [] => []
  | row :: df' =>
      bool_decide (row ∈ seen) :: duplicated_from ({[row]} ∪ seen) df'
  end.

Definition duplicated (df : list (str * str)) : list bool :=
  duplicated_from ∅ df.


(** The cells "Randomize" and "Split".  [df.sample(frac=1, random_state=1)]
    returns all rows in an order drawn by the random generator; the order
    is the parameter [sample_frac_1].  [iloc[:4457]] and [iloc[4457:]] cut
    the frame by position. *)
Definition train_test_split
    (sample_frac_1 : list (str * str) → list (str * str))
    (df : list (str * str)) : list (str * str) * list (str * str) :=
  let df := sample_frac_1 df in
  (take 4457 df, drop 4457 df).

Section Evaluation.
Context {U : Unicode} {A : Arith}.

(** [col == value], [col1 == col2] and [mask1 & mask2] on columns of one
    frame. *)
Definition eq_value (col : list str) (value : str) : list bool :=
  (λ x, bool_decide (x = value)) <$> col.

Definition eq_columns (col1 col2 : list str) : list bool :=
  zip_with (λ x y, bool_decide (x = y)) col1 col2.

Definition and_mask (mask1 mask2 : list bool) : list bool :=
  zip_with andb mask1 mask2.

(** [test["prediction"] = test["SMS"].apply(classify)]: the test frame
    with its new column, as rows [(Label, SMS, prediction)]. *)
Definition predict (M : Model) (test : list (str * str))
  : list (str * str * str) :=
  (λ row, (row.1, row.2, classify M row.2)) <$> test.

Definition Label_of (test : list (str * str * str)) : list str := test.*1.*1.
Definition prediction_of (test : list (str * str * str)) : list str := test.*2.

(** [(test["prediction"] == test["Label"]).sum()], the count from which the
    notebook prints its percentage. *)
Definition correct (test : list (str * str * str)) : Z :=
  count_true (eq_columns (prediction_of test) (Label_of test)).

Definition false_positives (test : list (str * str * str))
  : list (str * str * str) :=
  select (and_mask (eq_value (prediction_of test) (py "spam"))
                   (eq_value (Label_of test) (py "ham"))) test.

Definition false_negatives (test : list (str * str * str))
  : list (str * str * str) :=
  select (and_mask (eq_value (prediction_of test) (py "ham"))
                   (eq_value (Label_of test) (py "spam"))) test.

Definition true_positives (test : list (str * str * str))
  : list (str * str * str) :=
  select (and_mask (eq_value (Label_of test) (py "spam"))
                   (eq_value (prediction_of test) (py "spam"))) test.

Definition true_negatives (test : list (str * str * str))
  : list (str * str * str) :=
  select (and_mask (eq_value (Label_of test) (py "ham"))
                   (eq_value (prediction_of test) (py "ham"))) test.

End Evaluation.

(** The lower-case mapping of the Latin-1 block as a map on characters. *)
Definition latin1_lower (c : N) : N :=
  if in_range 65 90 c || in_range 192 214 c || in_range 216 222 c
  then (c + 32)%N else c.

(** The product of a list of rationals. *)
Fixpoint Qprod (l : list Q) : Q :=
  match l with
  | [] => 1
  | q :: l' => q * Qprod l'
  end%Q.

(** * Properties *)

(** A decidable closed proposition, settled by evaluating its decision
    procedure. *)
Ltac by_evaluation := apply (bool_decide_unpack _); vm_compute; reflexivity.

(** ** The tokenizer on examples *)

Example tokenize_gut_check :
  tokenize (py "CONGRATULATIONS. You have been  selected for a secret prize.")
  = py <$> ["congratulations"; "you"; "have"; "been"; "selected"; "for"; "a";
            "secret"; "prize"]%string.
Proof. vm_compute. reflexivity. Qed.

Example tokenize_apostrophe :
  tokenize (py "  There's_1 TAB" ++ [9%N] ++ py "x")
  = py <$> ["there"; "s_1"; "tab"; "x"]%string.
Proof. vm_compute. reflexivity. Qed.

(** ** Loops of the training cells *)

Section Loops.
Context {U : Unicode} {A : Arith}.

Lemma elem_of_concat (w : str) (rows : list (list str)) :
  w ∈ concat rows ↔ ∃ row, w ∈ row ∧ row ∈ rows.
Proof.
  induction rows as [|r rows IH]; simpl.
  - rewrite elem_of_nil. split; [done|].
    intros (row & _ & Hrow). by apply elem_of_nil in Hrow.
  - rewrite elem_of_app, IH. split.
    + intros [Hw|(row & Hw & Hrow)].
      * exists r. split; [done | apply list_elem_of_here].
      * exists row. split; [done | by apply list_elem_of_further].
    + intros (row & Hw & Hrow). apply elem_of_cons in Hrow as [->|Hrow].
      * by left.
      * right. eauto.
Qed.

Lemma collect_words_concat (sms : list (list str)) :
  collect_words sms = concat sms.
Proof.
  unfold collect_words.
  assert (Hrow : ∀ (row acc : list str),
            foldl (λ vocabulary word, vocabulary ++ [word]) acc row = acc ++ row).
  { induction row as [|w row IH]; intros acc; simpl.
    - by rewrite app_nil_r.
    - rewrite IH, <- app_assoc. done. }
  assert (Hall : ∀ (rows : list (list str)) (acc : list str),
            foldl (λ vocabulary row,
                     foldl (λ vocabulary word, vocabulary ++ [word]) vocabulary row)
                  acc rows = acc ++ concat rows).
  { induction rows as [|row rows IH]; intros acc; simpl.
    - by rewrite app_nil_r.
    - rewrite Hrow, IH, <- app_assoc. done. }
  apply (Hall sms []).
Qed.

Lemma elem_of_unique (l : list str) (w : str) : w ∈ unique l ↔ w ∈ l.
Proof. unfold unique. rewrite elem_of_elements, elem_of_list_to_set. done. Qed.

Lemma dict_comp_lookup {V : Type} (f : str → V) (keys : list str) (k : str) :
  dict_comp f keys !! k = if decide (k ∈ keys) then Some (f k) else None.
Proof.
  unfold dict_comp.
  assert (Hgen : ∀ (d : gmap str V),
            foldl (λ d k, <[k := f k]> d) d keys !! k
            = if decide (k ∈ keys) then Some (f k) else d !! k).
  { induction keys as [|x keys IH]; intros d; simpl.
    - done.
    - rewrite IH. repeat case_decide; try done.
      + exfalso. rewrite elem_of_cons in *. tauto.
      + destruct (decide (x = k)) as [->|Hne].
        * by rewrite lookup_insert_eq.
        * exfalso. rewrite elem_of_cons in *. intuition congruence.
      + rewrite lookup_insert_ne; [done|].
        intros ->. rewrite elem_of_cons in *. tauto. }
  rewrite Hgen. by rewrite lookup_empty.
Qed.

Lemma occurrences_cons (w x : str) (row : list str) :
  occurrences w (x :: row) = (if decide (x = w) then 1 else 0) + occurrences w row.
Proof.
  unfold occurrences. rewrite filter_cons.
  destruct (decide (x = w)); simpl; lia.
Qed.

Lemma occurrences_app (w : str) (r1 r2 : list str) :
  occurrences w (r1 ++ r2) = occurrences w r1 + occurrences w r2.
Proof. unfold occurrences. rewrite filter_app, length_app. lia. Qed.

(** *** The word-count table (cell 18) *)

Lemma add_rows_zero (w : str) (rows : list (list str)) :
  ∀ pre, add_rows w (length pre) rows (pre ++ replicate (length rows) 0)
         = pre ++ (occurrences w <$> rows).
Proof.
  induction rows as [|row rows IH]; intros pre; simpl; [done|].
  replace (length pre) with (length pre + 0)%nat at 2 by lia.
  rewrite alter_app_r. simpl.
  rewrite Z.add_0_r.
  replace (S (length pre)) with (length (pre ++ [occurrences w row]))
    by (rewrite length_app; simpl; lia).
  rewrite (cons_middle (occurrences w row) pre (replicate _ _)), app_assoc.
  rewrite IH, <- app_assoc. done.
Qed.

Lemma increment_ok (d : gmap str (list Z)) (word : str) (i : nat)
    (col : list Z) (n : Z) :
  d !! word = Some col → col !! i = Some n →
  increment d word i = Ok (<[word := <[i := n + 1]> col]> d).
Proof. intros Hcol Hn. unfold increment. by rewrite Hcol, Hn. Qed.

Lemma increment_row (row : list str) (i : nat) :
  ∀ d : gmap str (list Z),
    (∀ w, w ∈ row → ∃ col, d !! w = Some col ∧ (i < length col)%nat) →
    ∃ d', for_each (λ d word, increment d word i) row d = Ok d' ∧
          ∀ w, d' !! w = alter (Z.add (occurrences w row)) i <$> d !! w.
Proof.
  induction row as [|x row IH]; intros d Hd; simpl.
  - exists d. split; [done|]. intros w.
    destruct (d !! w) as [col|]; simpl; [|done].
    f_equal. by rewrite list_alter_id.
  - destruct (Hd x) as (col & Hcol & Hi); [apply list_elem_of_here|].
    destruct (lookup_lt_is_Some_2 col i Hi) as [n Hn].
    rewrite (increment_ok d x i col n Hcol Hn). simpl.
    destruct (IH (<[x := <[i := n + 1]> col]> d)) as (d' & Hloop & Hd').
    { intros w Hw. destruct (decide (x = w)) as [->|Hne].
      - exists (<[i := n + 1]> col).
        by rewrite lookup_insert_eq, length_insert.
      - rewrite lookup_insert_ne by done.
        apply Hd. by apply list_elem_of_further. }
    exists d'. split; [done|]. intros w. rewrite Hd'.
    rewrite occurrences_cons.
    destruct (decide (x = w)) as [->|Hne].
    + rewrite lookup_insert_eq, Hcol. simpl. f_equal.
      rewrite list_insert_alter, list_alter_alter_eq.
      apply list_alter_ext; [|done].
      intros c Hc. simpl. rewrite Hn in Hc. injection Hc as <-. lia.
    + rewrite lookup_insert_ne by done. done.
Qed.

Lemma increment_rows (n : nat) (rows : list (list str)) :
  ∀ (k : nat) (d : gmap str (list Z)),
    (∀ w col, d !! w = Some col → length col = n) →
    (∀ row w, row ∈ rows → w ∈ row → is_Some (d !! w)) →
    (k + length rows ≤ n)%nat →
    ∃ d', for_each (λ d '(index, row),
                      for_each (λ d word, increment d word index) row d)
                   (zip (seq k (length rows)) rows) d = Ok d' ∧
          ∀ w, d' !! w = add_rows w k rows <$> d !! w.
Proof.
  induction rows as [|row rows IH]; intros k d Hlen Hkeys Hk; simpl.
  - exists d. split; [done|]. intros w. by destruct (d !! w).
  - simpl in Hk.
    destruct (increment_row row k d) as (d1 & Hrow & Hd1).
    { intros w Hw.
      destruct (Hkeys row w) as [col Hcol]; [apply list_elem_of_here|done|].
      exists col. split; [done|]. rewrite (Hlen w col Hcol). lia. }
    rewrite Hrow. simpl.
    destruct (IH (S k) d1) as (d' & Hloop & Hd').
    { intros w col. rewrite Hd1.
      destruct (d !! w) as [col0|] eqn:Hw; simpl; [|done].
      intros [= <-]. rewrite length_alter. by apply (Hlen w). }
    { intros r w Hr Hw. rewrite Hd1.
      destruct (Hkeys r w) as [col Hcol]; [by apply list_elem_of_further|done|].
      rewrite Hcol. by eexists. }
    { lia. }
    exists d'. split; [done|]. intros w. rewrite Hd', Hd1.
    by destruct (d !! w).
Qed.

Lemma count_words_spec (vocabulary : list str) (sms : list (list str)) :
  (∀ row w, row ∈ sms → w ∈ row → w ∈ vocabulary) →
  ∃ d, count_words vocabulary sms = Ok d ∧
       ∀ w, d !! w = if decide (w ∈ vocabulary)
                     then Some (occurrences w <$> sms) else None.
Proof.
  intros Hvoc. unfold count_words, enumerate.
  destruct (increment_rows (length sms) sms 0
              (dict_comp (λ _, replicate (length sms) 0) vocabulary))
    as (d & Hloop & Hd).
  - intros w col. rewrite dict_comp_lookup.
    case_decide; [|done]. intros [= <-]. by rewrite length_replicate.
  - intros row w Hrow Hw. rewrite dict_comp_lookup.
    rewrite decide_True by eauto. by eexists.
  - lia.
  - exists d. split; [done|]. intros w.
    rewrite Hd, dict_comp_lookup. case_decide; [|done]. simpl. f_equal.
    apply (add_rows_zero w sms []).
Qed.

(** *** The cleaned column (cell "Data clean") *)

Lemma re_sub_upto_exhausted (pat : atom) (repl s : str) :
  re_sub_upto (Some O) pat repl s = s.
Proof.
  induction s as [|c s IH]; [done|].
  cbn [re_sub_upto exhausted negb]. rewrite andb_false_r. by rewrite IH.
Qed.

Lemma re_sub_NonWord (s : str) : re_sub NonWord (py " ") s 0 = re_sub_W s.
Proof.
  unfold re_sub, re_sub_W. induction s as [|c s IH]; [done|].
  rewrite fmap_cons. cbn [re_sub_upto spend exhausted negb atom_matches].
  rewrite andb_true_r, IH. by destruct (is_word c).
Qed.

Lemma Series_str_replace_regex (pat : atom) (repl : str) (n : Z)
    (col : list str) :
  (1 < length (source pat))%nat → n ≤ 0 →
  Series_str_replace pat repl n true col = (λ x, re_sub pat repl x 0) <$> col.
Proof.
  intros Hlen Hn. unfold Series_str_replace.
  rewrite (proj2 (Nat.ltb_lt _ _) Hlen).
  destruct (Z.leb_spec 0 n); [|done]. by replace n with 0 by lia.
Qed.

Lemma clean_column_tokenize (col : list str) :
  clean_column col = tokenize <$> col.
Proof.
  unfold clean_column, str_split, str_lower, str_replace_W, tokenize.
  unfold regex_default, n_default.
  rewrite Series_str_replace_regex by (simpl; lia).
  rewrite <- !list_fmap_compose. apply list_fmap_ext.
  intros i s _. simpl. by rewrite re_sub_NonWord.
Qed.

(** *** The label masks (cell 22) *)

Lemma select_labelled (L : str) (train : list (str * str)) :
  select ((λ l, bool_decide (l = L)) <$> train.*1) (clean_column (train.*2))
  = labelled L train.
Proof.
  rewrite clean_column_tokenize. unfold labelled, examples.
  induction train as [|[l text] train IH]; csimpl; [done|].
  rewrite filter_cons. csimpl.
  case_bool_decide; case_decide; try done; csimpl; by rewrite IH.
Qed.

Lemma length_select_labels (L : str) (train : list (str * str)) :
  length (select ((λ l, bool_decide (l = L)) <$> train.*1) (train.*1))
  = length (labelled L train).
Proof.
  unfold labelled, examples.
  induction train as [|[l text] train IH]; csimpl; [done|].
  rewrite filter_cons. csimpl.
  case_bool_decide; case_decide; try done; csimpl; by rewrite IH.
Qed.

Lemma Zsum_select_occurrences (w : str) (mask : list bool) :
  ∀ sms : list (list str),
    Zsum (select mask (occurrences w <$> sms))
    = occurrences w (concat (select mask sms)).
Proof.
  induction mask as [|b mask IH]; intros [|row sms]; simpl; try done.
  destruct b; simpl; [|apply IH].
  by rewrite occurrences_app, IH.
Qed.

(** *** The vocabulary (cell 16) *)

Lemma elem_of_vocabulary (train : list (str * str)) (w : str) :
  w ∈ unique (collect_words (clean_column (train.*2))) ↔ w ∈ Vocabulary train.
Proof.
  rewrite elem_of_unique, collect_words_concat, clean_column_tokenize.
  unfold Vocabulary, examples. rewrite elem_of_list_to_set.
  rewrite <- list_fmap_compose, <- list_fmap_compose. done.
Qed.

Lemma length_vocabulary (train : list (str * str)) :
  length (unique (collect_words (clean_column (train.*2))))
  = size (Vocabulary train).
Proof.
  unfold unique, Vocabulary, examples.
  rewrite collect_words_concat, clean_column_tokenize.
  rewrite <- list_fmap_compose, <- list_fmap_compose. done.
Qed.

(** *** The parameter tables (cells 26 and 27) *)

Lemma set_parameters_ok (alpha : Z) (word_counts : gmap str (list Z))
    (ham_rows spam_rows : list bool) (nh ns nv : Z)
    (ph ps : gmap str num) (word : str) (col : list Z) :
  word_counts !! word = Some col →
  set_parameters alpha word_counts ham_rows spam_rows nh ns nv (ph, ps) word
  = Ok (<[word := true_div (Zsum (select ham_rows col) + alpha)
                           (nh + alpha * nv)]> ph,
        <[word := true_div (Zsum (select spam_rows col) + alpha)
                           (ns + alpha * nv)]> ps).
Proof. intros Hcol. unfold set_parameters, column_sum. by rewrite Hcol. Qed.

Lemma set_parameters_loop (alpha : Z) (word_counts : gmap str (list Z))
    (ham_rows spam_rows : list bool) (nh ns nv : Z) (l : list str) :
  ∀ ph ps : gmap str num,
    (∀ w, w ∈ l → is_Some (word_counts !! w)) →
    ∃ ph' ps',
      for_each (set_parameters alpha word_counts ham_rows spam_rows nh ns nv)
               l (ph, ps) = Ok (ph', ps') ∧
      (∀ w, ph' !! w =
            if decide (w ∈ l)
            then (λ col, true_div (Zsum (select ham_rows col) + alpha)
                                  (nh + alpha * nv)) <$> word_counts !! w
            else ph !! w) ∧
      (∀ w, ps' !! w =
            if decide (w ∈ l)
            then (λ col, true_div (Zsum (select spam_rows col) + alpha)
                                  (ns + alpha * nv)) <$> word_counts !! w
            else ps !! w).
Proof.
  induction l as [|x l IH]; intros ph ps Hkeys; simpl.
  - exists ph, ps. done.
  - destruct (Hkeys x) as [col Hcol]; [apply list_elem_of_here|].
    rewrite (set_parameters_ok _ _ _ _ _ _ _ _ _ _ _ Hcol). simpl.
    edestruct IH as (ph' & ps' & Hloop & Hph & Hps).
    { intros w Hw. apply Hkeys. by apply list_elem_of_further. }
    exists ph', ps'. split; [exact Hloop|].
    split; intros w; [rewrite Hph | rewrite Hps].
    all: destruct (decide (w ∈ l)) as [Hin|Hnin].
    all: try (rewrite decide_True; [done | by apply list_elem_of_further]).
    all: destruct (decide (x = w)) as [->|Hne].
    all: try (rewrite lookup_insert_eq, decide_True, Hcol;
              [done | apply list_elem_of_here]).
    all: rewrite lookup_insert_ne by done.
    all: rewrite decide_False; [done|].
    all: rewrite elem_of_cons; intros [->|?]; done.
Qed.

End Loops.

(** ** Training succeeds on a non-empty collection and yields [trained] *)

Section Fit.
Context {U : Unicode} {A : Arith}.

Lemma fit_nil (alpha : Z) : fit alpha [] = Raise ZeroDivisionError.
Proof. reflexivity. Qed.

Lemma fit_total (alpha : Z) (train : list (str * str)) :
  train ≠ [] → ∃ M, fit alpha train = Ok M ∧ trained alpha train M.
Proof.
  intros Hne. unfold fit.
  set (SMS := clean_column (train.*2)).
  set (vocabulary := unique (collect_words SMS)).
  destruct (count_words_spec vocabulary SMS) as (d & Hcount & Hd).
  { intros row w Hrow Hw. apply elem_of_unique.
    rewrite collect_words_concat. apply elem_of_concat. eauto. }
  rewrite Hcount. simpl.
  unfold py_div.
  replace (Z.of_nat (length train) =? 0) with false
    by (symmetry; apply Z.eqb_neq; destruct train; simpl; [done | lia]).
  simpl.
  edestruct (set_parameters_loop alpha d) as (ph & ps & Hloop & Hph & Hps);
    [|rewrite Hloop].
  { intros w Hw. rewrite Hd, decide_True by done. by eexists. }
  simpl. eexists. split; [reflexivity|].
  unfold trained, prior, example_count. simpl.
  rewrite !length_select_labels.
  split; [done|]. split; [done|].
  split; intros t; [rewrite Hph | rewrite Hps].
  all: rewrite Hd, dict_comp_lookup.
  all: unfold vocabulary, SMS; rewrite length_vocabulary.
  all: destruct (decide (t ∈ Vocabulary train)) as [Hin|Hnin].
  all: try (rewrite !decide_False by (by rewrite elem_of_vocabulary); done).
  all: rewrite !decide_True by (by rewrite elem_of_vocabulary).
  all: simpl; f_equal.
  all: unfold likelihood, token_count, total_tokens.
  all: by rewrite Zsum_select_occurrences, !select_labelled.
Qed.

Lemma fit_inv (alpha : Z) (train : list (str * str)) (M : Model) :
  fit alpha train = Ok M → train ≠ [] ∧ trained alpha train M.
Proof.
  intros Hfit. destruct train as [|ex train].
  - by rewrite fit_nil in Hfit.
  - split; [done|].
    destruct (fit_total alpha (ex :: train)) as (M' & Hfit' & HM'); [done|].
    rewrite Hfit in Hfit'. by injection Hfit' as <-.
Qed.

End Fit.

(** ** The tokenizer *)

Section TokenizerFacts.
Context {U : Unicode}.

Lemma split_tokens (s : str) :
  Forall (λ t, t ≠ [] ∧ Forall (λ c, is_space c = false) t) (split s).
Proof.
  induction s as [|c s IH]; simpl; [constructor|].
  destruct (is_space c) eqn:Hc; [done|].
  destruct (split s) as [|w ws]; [repeat constructor; done|].
  inversion_clear IH as [|? ? [Hw1 Hw2] Hws].
  destruct (starts_word s); repeat constructor; done.
Qed.

Lemma split_Forall (P : N → Prop) (s : str) :
  Forall P s → Forall (Forall P) (split s).
Proof.
  induction 1 as [|c s Hc Hs IH]; simpl; [constructor|].
  destruct (is_space c); [done|].
  destruct (split s) as [|w ws]; [repeat constructor; done|].
  inversion_clear IH as [|? ? Hw Hws].
  destruct (starts_word s); repeat constructor; done.
Qed.

Lemma split_spaces (s : str) :
  Forall (λ c, is_space c = true) s → split s = [].
Proof. induction 1 as [|c s Hc Hs IH]; simpl; [done|]. by rewrite Hc. Qed.

Lemma lower_from_Forall (P Q : N → Prop) :
  (∀ before c after, P c → Forall Q (tolower before c after)) →
  ∀ s before, Forall P s → Forall Q (lower_from before s).
Proof.
  intros Hchar s. induction s as [|c s IH]; intros before Hs; simpl.
  - constructor.
  - inversion_clear Hs. apply Forall_app. split; [by apply Hchar | by apply IH].
Qed.

End TokenizerFacts.

(** *** Tokens of Latin-1 text *)

Lemma latin1_table : forallb latin1_char_ok (N.of_nat <$> seq 0 256) = true.
Proof. vm_compute. reflexivity. Qed.

Lemma latin1_char (c : N) : (c < 256)%N → latin1_char_ok c = true.
Proof.
  intros Hc. pose proof latin1_table as Htab.
  rewrite forallb_forall in Htab. apply Htab.
  apply list_elem_of_In, list_elem_of_fmap. exists (N.to_nat c).
  split; [by rewrite N2Nat.id|].
  apply list_elem_of_In, in_seq. lia.
Qed.

Lemma latin1_lower_re_sub_W (s : str) :
  Forall (λ c, (c < 256)%N) s → Forall blank_or_word (lower (re_sub_W s)).
Proof.
  intros Hs. unfold lower.
  apply (lower_from_Forall (λ c, ∃ c0, (c0 < 256)%N ∧
                                   c = if ucd_is_word c0 then c0 else 32%N)).
  - intros before c after (c0 & Hc0 & ->).
    pose proof (latin1_char c0 Hc0) as Hok. unfold latin1_char_ok in Hok.
    rewrite forallb_forall in Hok. apply Forall_forall. intros c' Hc'.
    specialize (Hok c'). unfold blank_or_word.
    assert (Hin : In c' (ucd_tolower [] (if ucd_is_word c0 then c0 else 32%N) []))
      by (by apply list_elem_of_In).
    apply Hok in Hin.
    apply orb_true_iff in Hin as [Hin|Hin].
    + apply andb_true_iff in Hin as [Heq ?]. apply N.eqb_eq in Heq. by left.
    + apply andb_true_iff in Hin as [Hin Hsp].
      apply andb_true_iff in Hin as [Hw Hup].
      apply negb_true_iff in Hup, Hsp. by right.
  - unfold re_sub_W. apply Forall_fmap. eapply Forall_impl; [exact Hs|].
    intros c Hc. simpl. by exists c.
Qed.

Lemma latin1_tokens (s : str) :
  Forall (λ c, (c < 256)%N) s →
  Forall (Forall (λ c, ucd_is_word c = true ∧ ucd_is_upper c = false))
         (tokenize s).
Proof.
  intros Hs. unfold tokenize.
  pose proof (split_Forall blank_or_word _ (latin1_lower_re_sub_W s Hs)) as Hbw.
  pose proof (split_tokens (lower (re_sub_W s))) as Htok.
  rewrite Forall_forall in Hbw, Htok. apply Forall_forall. intros t Ht.
  specialize (Hbw t Ht). destruct (Htok t Ht) as [_ Hns].
  rewrite Forall_forall in Hbw, Hns. apply Forall_forall. intros c Hc.
  destruct (Hbw c Hc) as [[_ Hsp]|(Hw & Hup & _)]; [|done].
  specialize (Hns c Hc). simpl in Hns. congruence.
Qed.

Lemma latin1_no_word (s : str) :
  Forall (λ c, (c < 256)%N ∧ ucd_is_word c = false) s → tokenize s = [].
Proof.
  intros Hs. unfold tokenize. apply split_spaces. unfold lower.
  apply (lower_from_Forall (λ c, c = 32%N)).
  - intros before c after ->. by repeat constructor.
  - unfold re_sub_W. apply Forall_fmap. eapply Forall_impl; [exact Hs|].
    intros c [_ Hc]. simpl. by rewrite Hc.
Qed.

(** The word columns of the training frame cannot take the name of one of
    its two own columns, [Label] and [SMS]. *)
Lemma frame_columns_are_no_words (s : str) :
  Forall (λ c, (c < 256)%N) s →
  (py "Label" ∉ tokenize s) ∧ (py "SMS" ∉ tokenize s).
Proof.
  intros Hs. pose proof (latin1_tokens s Hs) as Htokens.
  rewrite Forall_forall in Htokens.
  split; intros Hin; specialize (Htokens _ Hin).
  - change (py "Label") with (76%N :: py "abel") in Htokens.
    inversion_clear Htokens as [|? ? [_ Hupper] _]. discriminate Hupper.
  - change (py "SMS") with (83%N :: py "MS") in Htokens.
    inversion_clear Htokens as [|? ? [_ Hupper] _]. discriminate Hupper.
Qed.

(** The route pandas takes through [str.replace] matters: a pattern of
    one character is not compiled, so that the dot replaces the dots only,
    where [re.sub] replaces every character. *)
Example one_character_pattern_is_literal :
  Series_str_replace (U := ucd) AnyChar (py " ") n_default regex_default
    [py "a.b"] = [py "a b"] ∧
  re_sub (U := ucd) AnyChar (py " ") (py "a.b") 0 = py "   ".
Proof. by vm_compute. Qed.

(** Taken literally, the pattern [\W] occurs in no ordinary text, and the
    punctuation stays. *)
Example literal_pattern_keeps_punctuation :
  str_split (U := ucd)
    (str_lower (Series_str_replace NonWord (py " ") n_default false
                  [py "Hi, you!"]))
  = [[py "hi,"; py "you!"]] ∧
  tokenize (py "Hi, you!") = [py "hi"; py "you"].
Proof. by vm_compute. Qed.

Lemma literal_replace_keeps_the_dot (n : Z) :
  py_replace (source NonWord) (py " ") n [46%N] = [46%N].
Proof. unfold py_replace. by destruct (n <? 0). Qed.

Lemma re_sub_upto_dots (k : nat) (t : str) :
  re_sub_upto (U := ucd) (Some k) NonWord (py " ") (replicate k 46%N ++ t)
  = replicate k 32%N ++ t.
Proof.
  induction k as [|k IH]; [apply re_sub_upto_exhausted|].
  cbn [replicate app re_sub_upto]. change (atom_matches NonWord 46%N) with true.
  cbn [exhausted negb andb spend]. by rewrite IH.
Qed.

Lemma split_lower_blanks_dot (k : nat) (before : str) :
  split (U := ucd) (lower_from before (replicate k 32%N ++ [46%N])) = [[46%N]].
Proof.
  revert before. induction k as [|k IH]; intros before; [reflexivity|].
  cbn [replicate app lower_from]. change (tolower before 32%N _) with [32%N].
  cbn [app split]. change (is_space 32%N) with true. cbn iota. apply IH.
Qed.

(** With the Unicode tables of CPython, the cleaned column agrees with
    [tokenize] on every column exactly when pandas takes the route through
    [re] without a bound on the replacements. *)
Lemma cleaning_through_re_only (n : Z) (regex : bool) :
  (∀ col : list str,
     str_split (U := ucd) (str_lower (Series_str_replace NonWord (py " ") n regex col))
     = tokenize <$> col)
  ↔ regex = true ∧ n ≤ 0.
Proof.
  split.
  - intros Hall. destruct regex.
    + split; [done|]. destruct (Z.le_gt_cases n 0) as [|Hn]; [done|exfalso].
      specialize (Hall [replicate (Z.to_nat n) 46%N ++ [46%N]]).
      unfold Series_str_replace in Hall. cbn [source] in Hall.
      change (1 <? length (py "\W"))%nat with true in Hall. cbn iota in Hall.
      destruct (Z.leb_spec 0 n); [|lia].
      unfold str_split, str_lower in Hall. rewrite !list_fmap_singleton in Hall.
      unfold re_sub in Hall. destruct (Z.to_nat n) as [|k] eqn:Hk; [lia|].
      unfold lower in Hall. rewrite re_sub_upto_dots, split_lower_blanks_dot in Hall.
      rewrite latin1_no_word in Hall; [discriminate|].
      apply Forall_app. split; [|by repeat constructor].
      apply Forall_replicate. done.
    + exfalso. specialize (Hall [[46%N]]).
      unfold Series_str_replace, str_split, str_lower in Hall.
      rewrite !list_fmap_singleton, literal_replace_keeps_the_dot in Hall.
      discriminate Hall.
  - intros [-> Hn] col. rewrite Series_str_replace_regex by (simpl; lia || done).
    unfold str_split, str_lower, tokenize.
    rewrite <- !list_fmap_compose. apply list_fmap_ext.
    intros i s _. simpl. by rewrite re_sub_NonWord.
Qed.

(** C8: the cleaning of the training column (pandas [str.replace] of the
    non-word characters by a space, [str.lower], [str.split]) and the
    cleaning inside [classify] ([re.sub], [lower], [split]) produce the
    same ordered token sequence for every input string: the cleaned
    column holds, row by row, what [classify] computes from the same
    text.  The agreement is between two library calls that are modelled
    apart: with its defaults pandas compiles the two-character pattern and
    substitutes through [re] without a bound, which is what [re.sub] does
    in [classify]; it would fail with [regex=False], where pandas replaces
    the pattern literally, and with a positive [n]. *)
Theorem training_and_classify_tokenize_alike :
  (∀ U : Unicode,
     (∀ message : str, clean_column [message] = [tokenize message]) ∧
     (∀ col : list str, clean_column col = tokenize <$> col) ∧
     (∀ (col : list str) (i : nat),
        clean_column col !! i = tokenize <$> col !! i)) ∧
  (∀ (U : Unicode) (col : list str),
     str_replace_W col = (λ x, re_sub NonWord (py " ") x 0) <$> col) ∧
  (∀ (U : Unicode) (message : str),
     re_sub NonWord (py " ") message 0 = re_sub_W message) ∧
  (∀ (n : Z) (regex : bool),
     (∀ col : list str,
        str_split (U := ucd)
          (str_lower (Series_str_replace NonWord (py " ") n regex col))
        = tokenize <$> col)
     ↔ regex = true ∧ n ≤ 0).
Proof.
  split; [|split; [|split]].
  - intros U. split; [|split].
    + intros message. apply (clean_column_tokenize [message]).
    + apply clean_column_tokenize.
    + intros col i. by rewrite clean_column_tokenize, list_lookup_fmap.
  - intros U col. unfold str_replace_W, regex_default, n_default.
    apply Series_str_replace_regex; [simpl; lia | done].
  - intros U message. apply re_sub_NonWord.
  - apply cleaning_through_re_only.
Qed.




(** ** Classification against a trained model *)

Section Classifier.
Context {U : Unicode} {A : Arith}.

Lemma adjust_in (alpha : Z) (train : list (str * str)) (M : Model)
    (sc : num * num) (word : str) :
  trained alpha train M → word ∈ Vocabulary train →
  adjust M sc word = (mul sc.1 (likelihood alpha train (py "ham") word),
                      mul sc.2 (likelihood alpha train (py "spam") word)).
Proof.
  intros (_ & _ & Hph & Hps) Hin. unfold adjust.
  rewrite Hph, Hps. by destruct (decide (word ∈ Vocabulary train)).
Qed.

Lemma adjust_out (alpha : Z) (train : list (str * str)) (M : Model)
    (sc : num * num) (word : str) :
  trained alpha train M → word ∉ Vocabulary train → adjust M sc word = sc.
Proof.
  intros (_ & _ & Hph & Hps) Hout. unfold adjust.
  rewrite Hph, Hps. destruct (decide (word ∈ Vocabulary train)); [done|].
  by destruct sc.
Qed.

Lemma foldl_adjust (alpha : Z) (train : list (str * str)) (M : Model) :
  trained alpha train M →
  ∀ (tokens : list str) (h s : num),
    foldl (adjust M) (h, s) tokens
    = (foldl mul h (likelihood alpha train (py "ham")
                      <$> filter (λ t, t ∈ Vocabulary train) tokens),
       foldl mul s (likelihood alpha train (py "spam")
                      <$> filter (λ t, t ∈ Vocabulary train) tokens)).
Proof.
  intros HM. induction tokens as [|t tokens IH]; intros h s; simpl; [done|].
  rewrite filter_cons. destruct (decide (t ∈ Vocabulary train)) as [Hin|Hout].
  - rewrite (adjust_in alpha train M _ _ HM Hin). simpl. apply IH.
  - rewrite (adjust_out alpha train M _ _ HM Hout). apply IH.
Qed.

Lemma foldl_adjust_unseen (alpha : Z) (train : list (str * str)) (M : Model) :
  trained alpha train M →
  ∀ (tokens : list str) (sc : num * num),
    Forall (λ t, t ∉ Vocabulary train) tokens →
    foldl (adjust M) sc tokens = sc.
Proof.
  intros HM tokens sc Hall. revert sc.
  induction Hall as [|t tokens Ht _ IH]; intros sc; simpl; [done|].
  by rewrite (adjust_out alpha train M _ _ HM Ht).
Qed.

Lemma spam_is_not_ham : py "spam" ≠ py "ham".
Proof. discriminate. Qed.

End Classifier.

(** C1: for a trained model and any raw text, [classify] starts the two
    running scores at the priors, multiplies each by that label's smoothed
    likelihood for every in-vocabulary token of the tokenized message
    (once per occurrence, tokens outside the vocabulary being skipped),
    and answers spam exactly when the final spam score is strictly greater
    than the final ham score, ham otherwise. *)
Theorem classify_compares_scores {U : Unicode} {A : Arith} (alpha : Z)
    (train : list (str * str)) (M : Model) (message : str) :
  fit alpha train = Ok M →
  scores M [] = (prior train (py "ham"), prior train (py "spam")) ∧
  scores M message = (score alpha train (py "ham") message,
                      score alpha train (py "spam") message) ∧
  classify M message
  = (if gt (score alpha train (py "spam") message)
           (score alpha train (py "ham") message)
     then py "spam" else py "ham") ∧
  (classify M message = py "spam" ↔
   gt (score alpha train (py "spam") message)
      (score alpha train (py "ham") message) = true).
Proof.
  intros Hfit. apply fit_inv in Hfit as [_ HM].
  assert (Hscores : scores M message
                    = (score alpha train (py "ham") message,
                       score alpha train (py "spam") message)).
  { unfold scores, score. rewrite (foldl_adjust alpha train M HM).
    destruct HM as (-> & -> & _). done. }
  split; [|split; [exact Hscores|]].
  - destruct HM as (Hh & Hs & _). unfold scores. simpl. by rewrite Hh, Hs.
  - unfold classify. rewrite Hscores.
    split; [done|]. destruct (gt _ _); [done|].
    split; [|done]. intros Heq. symmetry in Heq. by apply spam_is_not_ham in Heq.
Qed.

Lemma sample_fit : fit alpha_notebook sample = Ok sample_model.
Proof. vm_compute. reflexivity. Qed.

Example sample_classification :
  classify sample_model (py "Win a PRIZE!") = py "spam" ∧
  classify sample_model (py "See you there") = py "ham" ∧
  classify sample_model [] = py "ham".
Proof. vm_compute. repeat split; reflexivity. Qed.

Lemma classify_compares_scores_witness :
  fit alpha_notebook sample = Ok sample_model ∧
  (classify sample_model (py "Win a PRIZE!") = py "spam" ↔
   gt (score alpha_notebook sample (py "spam") (py "Win a PRIZE!"))
      (score alpha_notebook sample (py "ham") (py "Win a PRIZE!")) = true).
Proof.
  split; [vm_compute; reflexivity|].
  apply (classify_compares_scores alpha_notebook sample sample_model).
  vm_compute. reflexivity.
Defined.

(** C7: for a trained model, a message all of whose tokens are absent from
    the vocabulary is classified like the empty string: the tokens leave
    both running scores at the priors, so both calls compare the priors. *)
Theorem unseen_tokens_are_neutral {U : Unicode} {A : Arith} (alpha : Z)
    (train : list (str * str)) (M : Model) (message : str) :
  fit alpha train = Ok M →
  Forall (λ t, t ∉ Vocabulary train) (tokenize message) →
  scores M message = (p_ham M, p_spam M) ∧
  scores M [] = (p_ham M, p_spam M) ∧
  classify M message = classify M [].
Proof.
  intros Hfit Hunseen. apply fit_inv in Hfit as [_ HM].
  assert (Hscores : scores M message = (p_ham M, p_spam M)).
  { unfold scores. by apply (foldl_adjust_unseen alpha train M HM). }
  split; [done|]. split; [done|].
  unfold classify. by rewrite Hscores.
Qed.

Lemma unseen_tokens_are_neutral_witness :
  fit alpha_notebook sample = Ok sample_model ∧
  Forall (λ t, t ∉ Vocabulary sample) (tokenize (py "zzqqxx_not_in_vocab")) ∧
  classify sample_model (py "zzqqxx_not_in_vocab") = classify sample_model [].
Proof.
  assert (Hfit : fit alpha_notebook sample = Ok sample_model)
    by (vm_compute; reflexivity).
  assert (Hunseen : Forall (λ t, t ∉ Vocabulary sample)
                           (tokenize (py "zzqqxx_not_in_vocab")))
    by by_evaluation.
  split; [exact Hfit|]. split; [exact Hunseen|].
  apply (unseen_tokens_are_neutral alpha_notebook sample sample_model
           (py "zzqqxx_not_in_vocab") Hfit Hunseen).
Defined.

(** C10: the two likelihood tables of a trained model have the same key
    set, the vocabulary.  [classify] only reads the tables (the embedding
    of its body has no assignment to them, as the source has none), so in
    every iteration the two membership tests agree: a word multiplies both
    running scores or neither. *)
Theorem tables_share_their_keys {U : Unicode} {A : Arith} (alpha : Z)
    (train : list (str * str)) (M : Model) :
  fit alpha train = Ok M →
  dom (parameters_ham M) = Vocabulary train ∧
  dom (parameters_spam M) = Vocabulary train ∧
  ∀ (word : str) (sc : num * num),
    (is_Some (parameters_ham M !! word) ↔ is_Some (parameters_spam M !! word)) ∧
    (((word ∉ Vocabulary train) ∧ adjust M sc word = sc)
     ∨ (word ∈ Vocabulary train ∧
        ∃ ph ps, parameters_ham M !! word = Some ph ∧
                 parameters_spam M !! word = Some ps ∧
                 adjust M sc word = (mul sc.1 ph, mul sc.2 ps))).
Proof.
  intros Hfit. apply fit_inv in Hfit as [_ HM].
  pose proof HM as (_ & _ & Hph & Hps).
  assert (Hdom : ∀ (table : gmap str num) (f : str → num),
            (∀ t, table !! t = if decide (t ∈ Vocabulary train)
                               then Some (f t) else None) →
            dom table = Vocabulary train).
  { intros table f Htable. apply set_eq. intros t.
    rewrite elem_of_dom, Htable.
    case_decide; split; try done. }
  split; [by eapply Hdom|]. split; [by eapply Hdom|].
  intros word sc. rewrite Hph, Hps.
  destruct (decide (word ∈ Vocabulary train)) as [Hin|Hout].
  - split; [by split; eexists|]. right. split; [done|].
    eexists _, _. split; [done|]. split; [done|].
    by apply (adjust_in alpha train).
  - split; [by split; intros [? ?]|]. left. split; [done|].
    by apply (adjust_out alpha train).
Qed.

Lemma tables_share_their_keys_witness :
  fit alpha_notebook sample = Ok sample_model ∧
  dom (parameters_ham sample_model) = dom (parameters_spam sample_model).
Proof.
  assert (Hfit : fit alpha_notebook sample = Ok sample_model)
    by (vm_compute; reflexivity).
  split; [exact Hfit|].
  destruct (tables_share_their_keys alpha_notebook sample sample_model Hfit)
    as (Hham & Hspam & _).
  by rewrite Hham, Hspam.
Defined.

Example sample_quantities :
  token_count sample (py "ham") (py "there") = 2 ∧
  token_count sample (py "spam") (py "there") = 0 ∧
  total_tokens sample (py "ham") = 6 ∧
  total_tokens sample (py "spam") = 4 ∧
  size (Vocabulary sample) = 8%nat ∧
  parameters_ham sample_model !! py "there" = Some (3 # 14)%Q ∧
  parameters_spam sample_model !! py "there" = Some (1 # 12)%Q.
Proof. vm_compute. repeat split; reflexivity. Qed.

(** C2: in a trained model, for every token [t] of the vocabulary and
    each of the two labels [L], the stored likelihood is
    [(token_count[L][t] + alpha) / (total_tokens[L] + alpha * |Vocabulary|)],
    where [token_count] counts the occurrences of [t] in the examples
    labelled [L], [total_tokens] adds the lengths of their token sequences
    and [|Vocabulary|] is the number of distinct tokens of all examples. *)
Theorem likelihood_is_smoothed_frequency {U : Unicode} {A : Arith} (alpha : Z)
    (train : list (str * str)) (M : Model) (t : str) :
  fit alpha train = Ok M →
  t ∈ Vocabulary train →
  parameters_ham M !! t
  = Some (true_div (token_count train (py "ham") t + alpha)
                   (total_tokens train (py "ham")
                    + alpha * Z.of_nat (size (Vocabulary train)))) ∧
  parameters_spam M !! t
  = Some (true_div (token_count train (py "spam") t + alpha)
                   (total_tokens train (py "spam")
                    + alpha * Z.of_nat (size (Vocabulary train)))).
Proof.
  intros Hfit Ht. apply fit_inv in Hfit as (_ & _ & _ & Hph & Hps).
  rewrite Hph, Hps. by destruct (decide (t ∈ Vocabulary train)).
Qed.

Lemma likelihood_is_smoothed_frequency_witness :
  fit alpha_notebook sample = Ok sample_model ∧
  py "there" ∈ Vocabulary sample ∧
  parameters_ham sample_model !! py "there"
  = Some (true_div (token_count sample (py "ham") (py "there") + alpha_notebook)
                   (total_tokens sample (py "ham")
                    + alpha_notebook * Z.of_nat (size (Vocabulary sample)))).
Proof.
  assert (Hfit : fit alpha_notebook sample = Ok sample_model)
    by (vm_compute; reflexivity).
  assert (Hin : py "there" ∈ Vocabulary sample)
    by by_evaluation.
  split; [exact Hfit|]. split; [exact Hin|].
  apply (likelihood_is_smoothed_frequency alpha_notebook sample sample_model
           (py "there") Hfit Hin).
Defined.

(** C3 (as stated, refuted): a negative smoothing constant is not
    rejected.  With [alpha = -1] training produces a model, here one whose
    "probabilities" are 2 and -1. *)
Lemma negative_alpha_is_accepted :
  ∃ M : @Model Q_arith,
    fit (-1) [(py "ham", py "a a a"); (py "spam", py "b b b")] = Ok M ∧
    parameters_ham M !! py "a" = Some (2 # 1)%Q ∧
    parameters_ham M !! py "b" = Some (-1 # 1)%Q.
Proof. eexists. vm_compute. repeat split; reflexivity. Qed.

(** C3 (amended): training fails when the collection of examples is
    empty, by the [ZeroDivisionError] of the division that computes the
    priors (the notebook has no error of its own), and then no model is
    produced; on every non-empty collection it produces a model, whatever
    the smoothing constant, which is never validated. *)
Theorem training_fails_only_on_empty_collection {U : Unicode} {A : Arith}
    (alpha : Z) :
  fit alpha [] = Raise ZeroDivisionError ∧
  ∀ (example : str * str) (train : list (str * str)),
    ∃ M, fit alpha (example :: train) = Ok M.
Proof.
  split; [apply fit_nil|]. intros example train.
  destruct (fit_total alpha (example :: train)) as (M & Hfit & _); [done|].
  by exists M.
Qed.

(** ** Exact rational arithmetic: the normalisation invariants *)

Section Normalisation.
Context {U : Unicode}.

Lemma Qsum_quotients (f : str → Z) (D : Z) (l : list str) :
  (Qsum ((λ t, inject_Z (f t) / inject_Z D) <$> l)
   == inject_Z (Zsum (f <$> l)) / inject_Z D)%Q.
Proof.
  induction l as [|t l IH].
  - simpl. unfold Qdiv. ring.
  - csimpl. rewrite IH, inject_Z_plus. unfold Qdiv. ring.
Qed.

Lemma Zsum_plus_constant (g : str → Z) (a : Z) (l : list str) :
  Zsum ((λ t, g t + a) <$> l) = Zsum (g <$> l) + a * Z.of_nat (length l).
Proof. induction l as [|t l IH]; csimpl; [lia|]. rewrite IH. lia. Qed.

Lemma Zsum_indicator (x : str) (l : list str) :
  NoDup l → x ∈ l →
  Zsum ((λ t, if decide (x = t) then 1 else 0) <$> l) = 1.
Proof.
  induction 1 as [|t l Hnotin Hnodup IH]; intros Hx; csimpl.
  - by apply elem_of_nil in Hx.
  - assert (Hzero : ∀ l', x ∉ l' →
              Zsum ((λ t, if decide (x = t) then 1 else 0) <$> l') = 0).
    { induction l' as [|t' l' IH']; intros Hnot; csimpl; [done|].
      rewrite not_elem_of_cons in Hnot. destruct Hnot as [Hne Hnot].
      rewrite decide_False by done. by rewrite IH'. }
    apply elem_of_cons in Hx as [->|Hx].
    + rewrite decide_True by done. by rewrite Hzero.
    + rewrite decide_False by (intros ->; done). by rewrite IH.
Qed.

(** Counting every token of a sequence once per vocabulary entry gives the
    length of the sequence. *)
Lemma Zsum_occurrences (l tokens : list str) :
  NoDup l → (∀ x, x ∈ tokens → x ∈ l) →
  Zsum ((λ t, occurrences t tokens) <$> l) = Z.of_nat (length tokens).
Proof.
  intros Hnodup. induction tokens as [|x tokens IH]; intros Hin.
  - clear. induction l as [|t l IHl]; csimpl; [done|]. by rewrite IHl.
  - transitivity (Zsum ((λ t, if decide (x = t) then 1 else 0) <$> l)
                  + Zsum ((λ t, occurrences t tokens) <$> l)).
    + clear. induction l as [|t l IHl]; csimpl; [done|].
      rewrite IHl, occurrences_cons. lia.
    + rewrite Zsum_indicator, IH; simpl length.
      * lia.
      * intros y Hy. apply Hin. by apply list_elem_of_further.
      * done.
      * apply Hin, list_elem_of_here.
Qed.

Lemma total_tokens_concat (train : list (str * str)) (L : str) :
  total_tokens train L = Z.of_nat (length (concat (labelled L train))).
Proof.
  unfold total_tokens. induction (labelled L train) as [|row rows IH]; csimpl.
  - done.
  - rewrite IH, length_app. lia.
Qed.

Lemma labelled_in_Vocabulary (train : list (str * str)) (L x : str) :
  x ∈ concat (labelled L train) → x ∈ Vocabulary train.
Proof.
  unfold Vocabulary, labelled. rewrite elem_of_list_to_set, !elem_of_concat.
  intros (row & Hx & Hrow). exists row. split; [done|].
  apply list_elem_of_fmap in Hrow as ([l r] & -> & Hex).
  apply list_elem_of_filter in Hex as [_ Hex].
  apply list_elem_of_fmap. by exists (l, r).
Qed.

Lemma token_counts_add_up (train : list (str * str)) (L : str) :
  Zsum ((λ t, token_count train L t) <$> elements (Vocabulary train))
  = total_tokens train L.
Proof.
  rewrite total_tokens_concat. unfold token_count.
  apply Zsum_occurrences; [apply NoDup_elements|].
  intros x Hx. apply elem_of_elements. by eapply labelled_in_Vocabulary.
Qed.

Lemma likelihood_sum_trained (alpha : Z) (train : list (str * str)) (L : str)
    (table : gmap str Q) :
  (∀ t, table !! t = if decide (t ∈ Vocabulary train)
                     then Some (likelihood alpha train L t) else None) →
  total_tokens train L + alpha * Z.of_nat (size (Vocabulary train)) ≠ 0 →
  (likelihood_sum table == 1)%Q.
Proof.
  intros Htable HD. unfold likelihood_sum.
  assert (Hdom : dom table = Vocabulary train).
  { apply set_eq. intros t. rewrite elem_of_dom, Htable.
    case_decide; split; try done. }
  rewrite Hdom.
  set (D := total_tokens train L + alpha * Z.of_nat (size (Vocabulary train))) in *.
  assert (Hentries :
    (λ t, default 0%Q (table !! t)) <$> elements (Vocabulary train)
    = (λ t, inject_Z (token_count train L t + alpha) / inject_Z D)%Q
        <$> elements (Vocabulary train)).
  { apply list_fmap_ext. intros i t Ht. rewrite Htable, decide_True; [done|].
    apply elem_of_elements. by eapply list_elem_of_lookup_2. }
  rewrite Hentries, Qsum_quotients, Zsum_plus_constant, token_counts_add_up.
  fold D. apply Qmult_inv_r. intros Hzero. apply HD.
  unfold Qeq in Hzero. simpl in Hzero. lia.
Qed.

End Normalisation.

(** C4 (as stated, refuted): a model trained on text without any word
    character has an empty vocabulary, and the sum of its likelihoods over
    the vocabulary is the empty sum 0, not 1. *)
Lemma empty_vocabulary_sums_to_zero :
  ∃ M : @Model Q_arith,
    fit alpha_notebook [(py "ham", py "!!!")] = Ok M ∧
    Vocabulary [(py "ham", py "!!!")] = ∅ ∧
    ¬ (likelihood_sum (parameters_ham M) == 1)%Q.
Proof. eexists. vm_compute. repeat split; discriminate. Qed.

(** C4 (amended): for a model trained with a positive smoothing constant
    on a collection whose vocabulary is not empty, and for each of the two
    labels, the likelihoods of the label summed over all tokens of the
    vocabulary give exactly 1 in rational arithmetic. *)
Theorem likelihoods_sum_to_one {U : Unicode} (alpha : Z)
    (train : list (str * str)) (M : @Model Q_arith) :
  fit alpha train = Ok M →
  0 < alpha →
  Vocabulary train ≠ ∅ →
  (likelihood_sum (parameters_ham M) == 1)%Q ∧
  (likelihood_sum (parameters_spam M) == 1)%Q.
Proof.
  intros Hfit Halpha Hvoc. apply fit_inv in Hfit as (_ & _ & _ & Hph & Hps).
  assert (HD : ∀ L, total_tokens train L
                    + alpha * Z.of_nat (size (Vocabulary train)) ≠ 0).
  { intros L. rewrite total_tokens_concat.
    assert (size (Vocabulary train) ≠ 0%nat)
      by (apply size_non_empty_iff; by intros ?%leibniz_equiv).
    nia. }
  split; eapply likelihood_sum_trained; eauto.
Qed.

Lemma likelihoods_sum_to_one_witness :
  fit alpha_notebook sample = Ok sample_model ∧
  0 < alpha_notebook ∧
  Vocabulary sample ≠ ∅ ∧
  (likelihood_sum (parameters_ham sample_model) == 1)%Q ∧
  (likelihood_sum (parameters_spam sample_model) == 1)%Q.
Proof.
  assert (Hfit : fit alpha_notebook sample = Ok sample_model)
    by (vm_compute; reflexivity).
  assert (Halpha : 0 < alpha_notebook) by reflexivity.
  assert (Hvoc : Vocabulary sample ≠ ∅)
    by by_evaluation.
  split; [exact Hfit|]. split; [exact Halpha|]. split; [exact Hvoc|].
  apply (likelihoods_sum_to_one alpha_notebook sample sample_model
           Hfit Halpha Hvoc).
Defined.

Lemma example_counts_add_up {U : Unicode} (train : list (str * str)) :
  Forall (λ ex, ex.1 = py "spam" ∨ ex.1 = py "ham") train →
  example_count train (py "spam") + example_count train (py "ham")
  = Z.of_nat (length train).
Proof.
  unfold example_count, labelled, examples.
  induction 1 as [|[l text] train Hl _ IH]; csimpl; [done|].
  rewrite !filter_cons. csimpl in *.
  destruct Hl as [-> | ->].
  - rewrite decide_True, decide_False by done. csimpl. lia.
  - rewrite decide_False, decide_True by done. csimpl. lia.
Qed.

(** C5: for a trained model whose training examples are all labelled spam
    or ham, each prior is the number of examples of its label divided by
    the number of all examples, and the two priors add up to exactly 1 in
    rational arithmetic. *)
Theorem priors_sum_to_one {U : Unicode} (alpha : Z)
    (train : list (str * str)) (M : @Model Q_arith) :
  fit alpha train = Ok M →
  Forall (λ ex, ex.1 = py "spam" ∨ ex.1 = py "ham") train →
  p_spam M = (inject_Z (example_count train (py "spam"))
              / inject_Z (Z.of_nat (length train)))%Q ∧
  p_ham M = (inject_Z (example_count train (py "ham"))
             / inject_Z (Z.of_nat (length train)))%Q ∧
  (p_spam M + p_ham M == 1)%Q.
Proof.
  intros Hfit Hlabels. apply fit_inv in Hfit as (Hne & Hh & Hs & _).
  rewrite Hh, Hs. unfold prior. simpl.
  split; [done|]. split; [done|].
  unfold Qdiv. rewrite <- Qmult_plus_distr_l, <- inject_Z_plus.
  rewrite (example_counts_add_up train Hlabels).
  apply Qmult_inv_r. intros Hzero.
  unfold Qeq in Hzero. simpl in Hzero. destruct train; simpl in *; [done | lia].
Qed.

Lemma priors_sum_to_one_witness :
  fit alpha_notebook sample = Ok sample_model ∧
  Forall (λ ex, ex.1 = py "spam" ∨ ex.1 = py "ham") sample ∧
  (p_spam sample_model + p_ham sample_model == 1)%Q.
Proof.
  assert (Hfit : fit alpha_notebook sample = Ok sample_model)
    by (vm_compute; reflexivity).
  assert (Hlabels : Forall (λ ex, ex.1 = py "spam" ∨ ex.1 = py "ham") sample)
    by by_evaluation.
  split; [exact Hfit|]. split; [exact Hlabels|].
  apply (priors_sum_to_one alpha_notebook sample sample_model Hfit Hlabels).
Defined.

Lemma balanced_fit : fit alpha_notebook balanced = Ok balanced_model.
Proof. vm_compute. reflexivity. Qed.

(** *** The laws of [>] in the two arithmetics *)

#[export] Instance Q_order : ArithOrder Q_arith.
Proof.
  refine (@Build_ArithOrder Q_arith Qeq_bool _ _).
  - intros x y Heq. apply Qeq_bool_iff in Heq. simpl.
    apply negb_false_iff, Qle_bool_iff. rewrite Heq. apply Qle_refl.
  - intros x y Hxy. simpl in *.
    apply negb_true_iff in Hxy. apply negb_false_iff, Qle_bool_iff.
    apply Qlt_le_weak, Qnot_le_lt. intros Hle.
    apply Qle_bool_iff in Hle. congruence.
Defined.

Lemma SFcompare_Eq_sym (a b : spec_float) :
  SFcompare a b = Some Eq → SFcompare b a = Some Eq.
Proof.
  destruct a as [sa|sa| |sa ma ea], b as [sb|sb| |sb mb eb]; simpl;
    try destruct sa; try destruct sb; try done.
  all: rewrite (Z.compare_antisym ea eb).
  all: change (Pos.compare_cont Eq mb ma) with (Pos.compare mb ma).
  all: change (Pos.compare_cont Eq ma mb) with (Pos.compare ma mb).
  all: rewrite (Pos.compare_antisym ma mb).
  all: destruct (ea ?= eb); simpl; try done.
  all: destruct (ma ?= mb)%positive; simpl; done.
Qed.

Lemma SFcompare_Lt_Gt (a b : spec_float) :
  SFcompare a b = Some Lt → SFcompare b a = Some Gt.
Proof.
  destruct a as [sa|sa| |sa ma ea], b as [sb|sb| |sb mb eb]; simpl;
    try destruct sa; try destruct sb; try done.
  all: rewrite (Z.compare_antisym ea eb).
  all: change (Pos.compare_cont Eq mb ma) with (Pos.compare mb ma).
  all: change (Pos.compare_cont Eq ma mb) with (Pos.compare ma mb).
  all: rewrite (Pos.compare_antisym ma mb).
  all: destruct (ea ?= eb); simpl; try done.
  all: destruct (ma ?= mb)%positive; simpl; done.
Qed.

#[export] Instance binary64_order : ArithOrder binary64.
Proof.
  refine (@Build_ArithOrder binary64 PrimFloat.eqb _ _).
  - intros x y Heq. simpl. rewrite FloatAxioms.eqb_spec in Heq. rewrite FloatAxioms.ltb_spec.
    unfold SFeqb in Heq. unfold SFltb.
    destruct (SFcompare (Prim2SF x) (Prim2SF y)) as [[| |]|] eqn:Hc; try done.
    by rewrite (SFcompare_Eq_sym _ _ Hc).
  - intros x y Hxy. simpl in *. rewrite FloatAxioms.ltb_spec in Hxy. rewrite FloatAxioms.ltb_spec.
    unfold SFltb in *.
    destruct (SFcompare (Prim2SF y) (Prim2SF x)) as [[| |]|] eqn:Hc; try done.
    by rewrite (SFcompare_Lt_Gt _ _ Hc).
Defined.

(** C6: whenever the two final scores are equal ([==]), [classify] answers
    ham.  On the empty string the scores are the priors, so [classify]
    answers ham when the priors are equal and otherwise the label of the
    larger prior.  This holds for every model, trained or not, in exact
    rational arithmetic and in binary64 (where it covers two scores that
    have both underflowed to zero). *)
Theorem ties_go_to_ham {U : Unicode} {A : Arith} {O : ArithOrder A}
    (M : Model) (message : str) :
  (eqn (scores M message).2 (scores M message).1 = true →
   classify M message = py "ham") ∧
  scores M [] = (p_ham M, p_spam M) ∧
  (eqn (p_spam M) (p_ham M) = true → classify M [] = py "ham") ∧
  (gt (p_spam M) (p_ham M) = true → classify M [] = py "spam") ∧
  (gt (p_ham M) (p_spam M) = true → classify M [] = py "ham").
Proof.
  assert (Hham : ∀ msg : str,
            gt (scores M msg).2 (scores M msg).1 = false →
            classify M msg = py "ham").
  { intros msg Hnot. unfold classify. destruct (scores M msg) as [h s].
    simpl in Hnot. by rewrite Hnot. }
  split; [|split; [done|split; [|split]]].
  - intros Heq. by apply Hham, gt_eqn.
  - intros Heq. by apply Hham, gt_eqn.
  - intros Hgt. unfold classify, scores. simpl. by rewrite Hgt.
  - intros Hgt. by apply Hham, gt_asym.
Qed.

Lemma ties_go_to_ham_witness :
  eqn (scores balanced_model (py "Hi, yo!")).2
      (scores balanced_model (py "Hi, yo!")).1 = true ∧
  classify balanced_model (py "Hi, yo!") = py "ham" ∧
  eqn (p_spam balanced_model) (p_ham balanced_model) = true ∧
  classify balanced_model [] = py "ham".
Proof.
  assert (Htie : eqn (scores balanced_model (py "Hi, yo!")).2
                     (scores balanced_model (py "Hi, yo!")).1 = true)
    by (vm_compute; reflexivity).
  assert (Hpriors : eqn (p_spam balanced_model) (p_ham balanced_model) = true)
    by (vm_compute; reflexivity).
  destruct (ties_go_to_ham balanced_model (py "Hi, yo!"))
    as (Hmessage & _ & Hempty & _ & _).
  split; [exact Htie|]. split; [exact (Hmessage Htie)|].
  split; [exact Hpriors|]. exact (Hempty Hpriors).
Defined.

(** ** The notebook's arithmetic on examples *)

(** The priors the notebook printed for its 4457 training rows are the
    binary64 quotients of 600 spam rows and 3857 ham rows, and their
    floating-point sum is 1. *)
Example notebook_priors :
  (* printed by Python as 0.13461969934933812 *)
  true_div (Arith := binary64) 600 4457 = 0x1.13b37e30d273bp-3%float ∧
  (* printed by Python as 0.8653803006506618 *)
  true_div (Arith := binary64) 3857 4457 = 0x1.bb132073cb631p-1%float ∧
  PrimFloat.eqb (0x1.13b37e30d273bp-3 + 0x1.bb132073cb631p-1) 1 = true.
Proof. vm_compute. repeat split; reflexivity. Qed.

(** A long message drives both products below the smallest binary64
    number: the scores tie at zero and the answer is ham, although the
    exact spam score is the greater one. *)
Example underflow_ties_at_zero :
  let message := py "yo " ++ mjoin (replicate 1000 (py "hi yo ")) in
  scores balanced_binary64 message = (0%float, 0%float) ∧
  classify balanced_binary64 message = py "ham" ∧
  classify balanced_model message = py "spam".
Proof. vm_compute. repeat split; reflexivity. Qed.

(** * Further properties of the notebook's code *)

(** ** More on the tokenizer *)

Section SplitFacts.
Context {U : Unicode}.

Lemma split_nil_starts_word (s : str) : split s = [] → starts_word s = false.
Proof.
  destruct s as [|c s]; simpl; [done|].
  destruct (is_space c); [done|].
  destruct (split s) as [|w ws]; [done|]. by destruct (starts_word s).
Qed.

Lemma starts_word_app (s1 s2 : str) (c : N) :
  is_space c = true → starts_word (s1 ++ c :: s2) = starts_word s1.
Proof. intros Hc. destruct s1 as [|x s1]; simpl; [by rewrite Hc | done]. Qed.

Lemma split_app (s1 s2 : str) (c : N) :
  is_space c = true → split (s1 ++ c :: s2) = split s1 ++ split s2.
Proof.
  intros Hc. induction s1 as [|x s1 IH]; simpl.
  - by rewrite Hc.
  - destruct (is_space x); [done|].
    rewrite IH, (starts_word_app s1 s2 c Hc).
    destruct (split s1) as [|w ws] eqn:Hs1; simpl.
    + rewrite (split_nil_starts_word s1 Hs1). by destruct (split s2).
    + by destruct (starts_word s1).
Qed.

Lemma split_word (t : str) :
  t ≠ [] → Forall (λ c, is_space c = false) t → split t = [t].
Proof.
  intros Hne Ht. induction Ht as [|c t Hc Ht IH]; [done|]. simpl.
  rewrite Hc. destruct t as [|c' t]; [done|].
  rewrite IH by done. simpl.
  inversion_clear Ht as [|? ? Hc' _]. by rewrite Hc'.
Qed.

Lemma concat_split (s : str) :
  concat (split s) = filter (λ c, is_space c = false) s.
Proof.
  induction s as [|c s IH]; simpl; [done|].
  rewrite filter_cons. destruct (is_space c) eqn:Hc.
  - by rewrite decide_False by done.
  - rewrite decide_True by done. rewrite <- IH.
    destruct (split s) as [|w ws]; [done|]. by destruct (starts_word s).
Qed.

End SplitFacts.

(** *** Latin-1 text: lower-casing is a map on characters *)

Lemma latin1_forall (P : N → bool) :
  forallb P (N.of_nat <$> seq 0 256) = true →
  ∀ c, (c < 256)%N → P c = true.
Proof.
  intros Htab c Hc. rewrite forallb_forall in Htab. apply Htab.
  apply list_elem_of_In, list_elem_of_fmap. exists (N.to_nat c).
  split; [by rewrite N2Nat.id|].
  apply list_elem_of_In, in_seq. lia.
Qed.

Lemma latin1_lower_table (c : N) :
  (c < 256)%N →
  ucd_tolower [] c [] = [latin1_lower c] ∧
  (latin1_lower c < 256)%N ∧
  ucd_is_word (latin1_lower c) = ucd_is_word c ∧
  latin1_lower (latin1_lower c) = latin1_lower c ∧
  (ucd_is_word c = true → ucd_is_space (latin1_lower c) = false) ∧
  (ucd_is_word c = false → latin1_lower c = c).
Proof.
  intros Hc.
  pose proof (latin1_forall
    (λ c, match ucd_tolower [] c [] with
          | [x] => (x =? latin1_lower c)%N
          | _ => false
          end
          && (latin1_lower c <? 256)%N
          && Bool.eqb (ucd_is_word (latin1_lower c)) (ucd_is_word c)
          && (latin1_lower (latin1_lower c) =? latin1_lower c)%N
          && (negb (ucd_is_word c) || negb (ucd_is_space (latin1_lower c)))
          && (ucd_is_word c || (latin1_lower c =? c)%N))
    ltac:(vm_compute; reflexivity) c Hc) as Hok.
  simpl in Hok.
  repeat (apply andb_true_iff in Hok as [Hok ?]).
  split.
  { destruct (ucd_tolower [] c []) as [|x [|? ?]]; try done.
    by apply N.eqb_eq in Hok as ->. }
  split; [by apply N.ltb_lt|].
  split; [by apply Bool.eqb_prop|].
  split; [by apply N.eqb_eq|].
  split.
  - intros Hw. rewrite Hw in *. simpl in *. by apply negb_true_iff.
  - intros Hw. rewrite Hw in *. simpl in *. by apply N.eqb_eq.
Qed.

Lemma latin1_lower_from (s : str) :
  Forall (λ c, (c < 256)%N) s →
  ∀ before, lower_from before s = latin1_lower <$> s.
Proof.
  induction 1 as [|c s Hc Hs IH]; intros before; csimpl; [done|].
  rewrite IH. destruct (latin1_lower_table c Hc) as (Hlow & _).
  change (ucd_tolower before c s) with (ucd_tolower [] c []).
  by rewrite Hlow.
Qed.

Lemma latin1_lower_fmap (s : str) :
  Forall (λ c, (c < 256)%N) s → lower s = latin1_lower <$> s.
Proof. intros Hs. by apply latin1_lower_from. Qed.

Lemma latin1_re_sub_W (s : str) :
  Forall (λ c, (c < 256)%N) s → Forall (λ c, (c < 256)%N) (re_sub_W s).
Proof.
  intros Hs. unfold re_sub_W. apply Forall_fmap. eapply Forall_impl; [exact Hs|].
  intros c Hc. unfold compose. simpl in *. destruct (ucd_is_word c); [exact Hc | reflexivity].
Qed.

Lemma latin1_lower_latin1 (s : str) :
  Forall (λ c, (c < 256)%N) s → Forall (λ c, (c < 256)%N) (lower s).
Proof.
  intros Hs. rewrite latin1_lower_fmap by done. apply Forall_fmap.
  eapply Forall_impl; [exact Hs|]. intros c Hc. unfold compose. simpl in *.
  by destruct (latin1_lower_table c Hc) as (_ & ? & _).
Qed.

(** For Latin-1 text the replacement of the non-word characters and the
    lower-casing can be done in either order. *)
Lemma latin1_lower_re_sub_W_commute (s : str) :
  Forall (λ c, (c < 256)%N) s → lower (re_sub_W s) = re_sub_W (lower s).
Proof.
  intros Hs.
  rewrite (latin1_lower_fmap (re_sub_W s)) by (by apply latin1_re_sub_W).
  rewrite (latin1_lower_fmap s) by done.
  unfold re_sub_W. rewrite <- !list_fmap_compose.
  apply Forall_fmap_ext. eapply Forall_impl; [exact Hs|].
  intros c Hc. simpl.
  destruct (latin1_lower_table c Hc) as (_ & _ & Hword & _ & _ & Hid).
  change (is_word (latin1_lower c)) with (ucd_is_word (latin1_lower c)).
  change (is_word c) with (ucd_is_word c). rewrite Hword.
  destruct (ucd_is_word c); [done|]. reflexivity.
Qed.

Lemma latin1_tokenize_app (m1 m2 : str) (c : N) :
  Forall (λ c, (c < 256)%N) m1 → Forall (λ c, (c < 256)%N) m2 →
  (c < 256)%N → ucd_is_word c = false →
  tokenize (m1 ++ c :: m2) = tokenize m1 ++ tokenize m2.
Proof.
  intros H1 H2 _ Hc. unfold tokenize.
  assert (Hsub : re_sub_W (m1 ++ c :: m2) = re_sub_W m1 ++ 32%N :: re_sub_W m2).
  { unfold re_sub_W. rewrite fmap_app, fmap_cons.
    change (is_word c) with (ucd_is_word c). by rewrite Hc. }
  rewrite Hsub.
  rewrite (latin1_lower_fmap (re_sub_W m1 ++ 32%N :: re_sub_W m2)).
  2:{ apply Forall_app. split; [by apply latin1_re_sub_W|].
      constructor; [reflexivity | by apply latin1_re_sub_W]. }
  rewrite fmap_app, fmap_cons.
  rewrite <- !latin1_lower_fmap by (by apply latin1_re_sub_W).
  by apply split_app.
Qed.

Lemma token_fixed (t : str) :
  t ≠ [] →
  Forall (λ c, ucd_is_word c = true ∧ ucd_is_upper c = false) t →
  Forall (λ c, is_space c = false) t →
  tokenize t = [t].
Proof.
  intros Hne Hword Hspace. unfold tokenize.
  assert (Hsub : re_sub_W t = t).
  { unfold re_sub_W. rewrite <- (list_fmap_id t) at 2.
    apply Forall_fmap_ext. eapply Forall_impl; [exact Hword|].
    intros c [Hw _]. simpl. change (is_word c) with (ucd_is_word c).
    by rewrite Hw. }
  assert (Hlow : ∀ before, lower_from before t = t).
  { clear Hne Hspace Hsub. induction Hword as [|c t [_ Hup] _ IH];
      intros before; simpl; [done|].
    rewrite IH. unfold ucd_tolower. unfold ucd_is_upper in Hup.
    apply orb_false_iff in Hup as [Hup H304]. rewrite Hup, H304. done. }
  rewrite Hsub. unfold lower. rewrite Hlow. by apply split_word.
Qed.

(** X1: tokenization loses nothing but white space and keeps the order:
    the tokens, concatenated, are the characters of the cleaned and
    lower-cased message that are no white space.  For Latin-1 text they
    are the word characters of the message, lower-cased, in order. *)
Theorem tokens_keep_the_word_characters :
  (∀ (U : Unicode) (s : str),
     concat (tokenize s)
     = filter (λ c, is_space c = false) (lower (re_sub_W s))) ∧
  (∀ s : str,
     Forall (λ c, (c < 256)%N) s →
     concat (tokenize s)
     = latin1_lower <$> filter (λ c, ucd_is_word c = true) s).
Proof.
  split.
  - intros U s. apply concat_split.
  - intros s Hs. unfold tokenize. rewrite concat_split.
    rewrite (latin1_lower_fmap (re_sub_W s)) by (by apply latin1_re_sub_W).
    unfold re_sub_W. rewrite <- list_fmap_compose.
    induction Hs as [|c s Hc Hs IH]; [done|].
    rewrite fmap_cons, !filter_cons, IH. unfold compose.
    change (is_word c) with (ucd_is_word c).
    change (is_space ?x) with (ucd_is_space x).
    destruct (latin1_lower_table c Hc) as (_ & _ & _ & _ & Hspace & _).
    destruct (ucd_is_word c) eqn:Hw.
    + rewrite (Hspace eq_refl). by rewrite !decide_True by done.
    + by rewrite !decide_False by done.
Qed.

Lemma tokens_keep_the_word_characters_witness :
  Forall (λ c, (c < 256)%N) (py "It's 4 U!") ∧
  concat (tokenize (py "It's 4 U!")) = py "its4u".
Proof.
  assert (Hs : Forall (λ c, (c < 256)%N) (py "It's 4 U!")) by by_evaluation.
  split; [exact Hs|].
  rewrite (proj2 tokens_keep_the_word_characters _ Hs). reflexivity.
Defined.

(** X2: two Latin-1 messages joined by a Latin-1 character that is no
    word character (a blank, a punctuation mark) have the tokens of the
    first followed by the tokens of the second, and the scores of the
    joined message are the scores of the first message carried on through
    the tokens of the second. *)
Theorem tokenize_joined_messages (m1 m2 : str) (c : N) :
  Forall (λ c, (c < 256)%N) m1 →
  Forall (λ c, (c < 256)%N) m2 →
  (c < 256)%N →
  ucd_is_word c = false →
  tokenize (m1 ++ c :: m2) = tokenize m1 ++ tokenize m2 ∧
  ∀ (A : Arith) (M : Model),
    scores M (m1 ++ c :: m2) = foldl (adjust M) (scores M m1) (tokenize m2).
Proof.
  intros H1 H2 H256 Hc.
  pose proof (latin1_tokenize_app m1 m2 c H1 H2 H256 Hc) as Happ.
  split; [exact Happ|]. intros A M. unfold scores.
  by rewrite Happ, foldl_app.
Qed.

Lemma tokenize_joined_messages_witness :
  Forall (λ c, (c < 256)%N) (py "WIN a prize") ∧
  Forall (λ c, (c < 256)%N) (py "see you") ∧
  (33 < 256)%N ∧
  ucd_is_word 33 = false ∧
  tokenize (py "WIN a prize" ++ 33%N :: py "see you")
  = tokenize (py "WIN a prize") ++ tokenize (py "see you").
Proof.
  assert (H1 : Forall (λ c, (c < 256)%N) (py "WIN a prize")) by by_evaluation.
  assert (H2 : Forall (λ c, (c < 256)%N) (py "see you")) by by_evaluation.
  assert (H256 : (33 < 256)%N) by reflexivity.
  assert (Hc : ucd_is_word 33 = false) by reflexivity.
  split; [exact H1|]. split; [exact H2|]. split; [exact H256|].
  split; [exact Hc|].
  exact (proj1 (tokenize_joined_messages _ _ _ H1 H2 H256 Hc)).
Defined.

(** X3: letter case is ignored on Latin-1 text.  Two messages with the
    same lower-casing have the same tokens and get the same label from
    every model; in particular a message and its lower-casing do. *)
Theorem letter_case_is_ignored (s1 s2 : str) :
  Forall (λ c, (c < 256)%N) s1 →
  Forall (λ c, (c < 256)%N) s2 →
  lower s1 = lower s2 →
  tokenize s1 = tokenize s2 ∧
  tokenize (lower s1) = tokenize s1 ∧
  ∀ (A : Arith) (M : Model),
    scores M s1 = scores M s2 ∧ classify M s1 = classify M s2.
Proof.
  intros H1 H2 Hlower.
  assert (Htok : ∀ s, Forall (λ c, (c < 256)%N) s →
                      tokenize s = split (re_sub_W (lower s))).
  { intros s Hs. unfold tokenize. by rewrite latin1_lower_re_sub_W_commute. }
  assert (H12 : tokenize s1 = tokenize s2).
  { by rewrite (Htok s1), (Htok s2), Hlower. }
  split; [exact H12|]. split.
  - rewrite (Htok (lower s1)) by (by apply latin1_lower_latin1).
    rewrite (Htok s1) by done. f_equal. f_equal.
    rewrite (latin1_lower_fmap (lower s1)) by (by apply latin1_lower_latin1).
    rewrite (latin1_lower_fmap s1) by done.
    rewrite <- list_fmap_compose. apply Forall_fmap_ext.
    eapply Forall_impl; [exact H1|]. intros c Hc. simpl.
    by destruct (latin1_lower_table c Hc) as (_ & _ & _ & ? & _).
  - intros A M. unfold classify, scores. by rewrite H12.
Qed.

Lemma letter_case_is_ignored_witness :
  Forall (λ c, (c < 256)%N) (py "Free PRIZE now") ∧
  Forall (λ c, (c < 256)%N) (py "FREE prize NOW") ∧
  lower (py "Free PRIZE now") = lower (py "FREE prize NOW") ∧
  tokenize (py "Free PRIZE now") = tokenize (py "FREE prize NOW").
Proof.
  assert (H1 : Forall (λ c, (c < 256)%N) (py "Free PRIZE now")) by by_evaluation.
  assert (H2 : Forall (λ c, (c < 256)%N) (py "FREE prize NOW")) by by_evaluation.
  assert (Hl : lower (py "Free PRIZE now") = lower (py "FREE prize NOW"))
    by reflexivity.
  split; [exact H1|]. split; [exact H2|]. split; [exact Hl|].
  exact (proj1 (letter_case_is_ignored _ _ H1 H2 Hl)).
Defined.

(** X4: the tokens of Latin-1 text are clean: tokenizing a token gives
    back that one token, so a token classified as a message is looked up
    in the tables as itself. *)
Theorem tokens_are_clean (s : str) :
  Forall (λ c, (c < 256)%N) s →
  Forall (λ t, tokenize t = [t] ∧
               ∀ (A : Arith) (M : Model),
                 scores M t = adjust M (p_ham M, p_spam M) t)
         (tokenize s).
Proof.
  intros Hs.
  pose proof (latin1_tokens s Hs) as Hword.
  pose proof (split_tokens (lower (re_sub_W s))) as Hsplit.
  fold (tokenize s) in Hsplit.
  rewrite Forall_forall in Hword, Hsplit. apply Forall_forall. intros t Ht.
  destruct (Hsplit t Ht) as [Hne Hspace].
  assert (Hfix : tokenize t = [t]) by (apply token_fixed; auto).
  split; [exact Hfix|]. intros A M. unfold scores. by rewrite Hfix.
Qed.

Lemma tokens_are_clean_witness :
  Forall (λ c, (c < 256)%N) (py "Call NOW, it's free") ∧
  Forall (λ t, tokenize t = [t]) (tokenize (py "Call NOW, it's free")).
Proof.
  assert (Hs : Forall (λ c, (c < 256)%N) (py "Call NOW, it's free"))
    by by_evaluation.
  split; [exact Hs|].
  eapply Forall_impl; [exact (tokens_are_clean _ Hs)|].
  intros t [Ht _]. exact Ht.
Defined.

(** ** More on training *)

(** X5: the vocabulary list of the cell "Data clean" has no repeated
    word, holds exactly the words that occur in some cleaned message, and
    is no longer than the list of all words it was made from. *)
Theorem vocabulary_has_each_word_once (sms : list (list str)) :
  NoDup (unique (collect_words sms)) ∧
  (∀ w, w ∈ unique (collect_words sms) ↔ ∃ row, w ∈ row ∧ row ∈ sms) ∧
  (length (unique (collect_words sms)) ≤ length (collect_words sms))%nat ∧
  collect_words sms = concat sms.
Proof.
  assert (Hnodup : NoDup (unique (collect_words sms)))
    by (unfold unique; apply NoDup_elements).
  split; [exact Hnodup|]. split; [|split].
  - intros w. by rewrite elem_of_unique, collect_words_concat, elem_of_concat.
  - apply submseteq_length, NoDup_submseteq; [exact Hnodup|].
    intros w. by rewrite elem_of_unique.
  - apply collect_words_concat.
Qed.

Section CountWords.
Context {U : Unicode} {A : Arith}.

Lemma increment_row_missing (vocabulary : list str) (n : nat)
    (row : list str) (i : nat) :
  ∀ d : gmap str (list Z),
    (∀ w, is_Some (d !! w) ↔ w ∈ vocabulary) →
    (∀ w col, d !! w = Some col → length col = n) →
    (i < n)%nat →
    (∃ w, w ∈ row ∧ w ∉ vocabulary) →
    for_each (λ d word, increment d word i) row d = Raise KeyError.
Proof.
  induction row as [|x row IH]; intros d Hkeys Hlen Hi (w & Hw & Hmiss).
  - by apply elem_of_nil in Hw.
  - simpl. destruct (d !! x) as [col|] eqn:Hx.
    + assert (Hxv : x ∈ vocabulary) by (apply Hkeys; by rewrite Hx).
      destruct (lookup_lt_is_Some_2 col i) as [c Hc];
        [by rewrite (Hlen x col Hx)|].
      rewrite (increment_ok d x i col c Hx Hc). simpl.
      apply IH; [| |done|].
      * intros w'. destruct (decide (x = w')) as [<-|Hne].
        -- rewrite lookup_insert_eq. split; [done | by eexists].
        -- by rewrite lookup_insert_ne.
      * intros w' col'. destruct (decide (x = w')) as [<-|Hne].
        -- rewrite lookup_insert_eq. intros [= <-].
           rewrite length_insert. by apply (Hlen x).
        -- rewrite lookup_insert_ne by done. apply Hlen.
      * exists w. split; [|done].
        apply elem_of_cons in Hw as [->|Hw]; [done | done].
    + unfold increment. by rewrite Hx.
Qed.

Lemma increment_rows_missing (vocabulary : list str) (n : nat)
    (rows : list (list str)) :
  ∀ (k : nat) (d : gmap str (list Z)),
    (∀ w, is_Some (d !! w) ↔ w ∈ vocabulary) →
    (∀ w col, d !! w = Some col → length col = n) →
    (k + length rows ≤ n)%nat →
    (∃ row w, row ∈ rows ∧ w ∈ row ∧ w ∉ vocabulary) →
    for_each (λ d '(index, row),
                for_each (λ d word, increment d word index) row d)
             (zip (seq k (length rows)) rows) d = Raise KeyError.
Proof.
  induction rows as [|row rows IH];
    intros k d Hkeys Hlen Hk (r & w & Hr & Hw & Hmiss).
  - by apply elem_of_nil in Hr.
  - simpl in *.
    destruct (decide (Forall (λ w', w' ∈ vocabulary) row)) as [Hgood|Hbad].
    2:{ apply not_Forall_Exists in Hbad; [|apply _].
        apply Exists_exists in Hbad as (w' & Hw' & Hmiss').
        rewrite (increment_row_missing vocabulary n row k d); try done;
          [lia | eauto]. }
    + assert (Hall : ∀ w', w' ∈ row → w' ∈ vocabulary)
        by (by apply Forall_forall).
      destruct (increment_row row k d) as (d1 & Hrow & Hd1).
      { intros w' Hw'. destruct (proj2 (Hkeys w') (Hall w' Hw')) as [col Hcol].
        exists col. split; [done|]. rewrite (Hlen w' col Hcol). lia. }
      rewrite Hrow. simpl. apply IH.
      * intros w'. rewrite Hd1, <- Hkeys.
        destruct (d !! w'); simpl; split; intros [? ?]; try done; by eexists.
      * intros w' col. rewrite Hd1.
        destruct (d !! w') as [col0|] eqn:Hw0; simpl; [|done].
        intros [= <-]. rewrite length_alter. by apply (Hlen w').
      * lia.
      * apply elem_of_cons in Hr as [->|Hr].
        -- exfalso. by apply Hmiss, Hall.
        -- eauto.
Qed.

End CountWords.

(** X6: the word-count loop of cell 18.  When every word of the messages
    is a key of the table (as it is for the vocabulary the notebook
    builds) the loop raises nothing and leaves, for each key, one count
    per message: the number of occurrences of the word in that message.
    When some message has a word that is no key, the loop ends in
    [KeyError]; an [IndexError] never occurs. *)
Theorem word_counts_per_message (vocabulary : list str)
    (sms : list (list str)) :
  ((∀ row w, row ∈ sms → w ∈ row → w ∈ vocabulary) →
   ∃ d, count_words vocabulary sms = Ok d ∧
        ∀ w, d !! w = if decide (w ∈ vocabulary)
                      then Some (occurrences w <$> sms) else None) ∧
  ((∃ row w, row ∈ sms ∧ w ∈ row ∧ w ∉ vocabulary) →
   count_words vocabulary sms = Raise KeyError) ∧
  (∃ d, count_words (unique (collect_words sms)) sms = Ok d ∧
        ∀ w col, d !! w = Some col →
                 length col = length sms ∧
                 Zsum col = occurrences w (concat sms)).
Proof.
  assert (Hsum : ∀ (w : str) (rows : list (list str)),
            Zsum (occurrences w <$> rows) = occurrences w (concat rows)).
  { intros w rows. induction rows as [|row rows IH]; csimpl; [done|].
    by rewrite IH, occurrences_app. }
  split; [apply count_words_spec|]. split.
  - intros Hmiss. unfold count_words, enumerate.
    apply (increment_rows_missing vocabulary (length sms)); [| |lia|done].
    + intros w. rewrite dict_comp_lookup. case_decide; split; try done.
    + intros w col. rewrite dict_comp_lookup.
      case_decide; [|done]. intros [= <-]. by rewrite length_replicate.
  - destruct (count_words_spec (unique (collect_words sms)) sms)
      as (d & Hd & Hcols).
    { intros row w Hrow Hw. apply elem_of_unique.
      rewrite collect_words_concat. apply elem_of_concat. eauto. }
    exists d. split; [done|]. intros w col. rewrite Hcols.
    case_decide; [|done]. intros [= <-].
    by rewrite length_fmap, Hsum.
Qed.

Lemma word_counts_per_message_witness :
  count_words [py "b"] [[py "a"; py "b"]] = Raise KeyError ∧
  ∃ d, count_words [py "a"; py "b"] [[py "a"; py "b"; py "a"]; [py "b"]] = Ok d ∧
       d !! py "a" = Some [2; 0].
Proof.
  destruct (word_counts_per_message [py "b"] [[py "a"; py "b"]])
    as (_ & Hmiss & _).
  destruct (word_counts_per_message [py "a"; py "b"]
              [[py "a"; py "b"; py "a"]; [py "b"]]) as (Hok & _ & _).
  split.
  - apply Hmiss. exists [py "a"; py "b"], (py "a").
    split; [by_evaluation|]. split; by_evaluation.
  - destruct Hok as (d & Hd & Hcols).
    + assert (Hall : Forall (Forall (λ w, w ∈ [py "a"; py "b"]))
                            [[py "a"; py "b"; py "a"]; [py "b"]])
        by by_evaluation.
      intros row w Hrow Hw. rewrite Forall_forall in Hall.
      specialize (Hall row Hrow). rewrite Forall_forall in Hall. by apply Hall.
    + exists d. split; [done|]. rewrite Hcols. reflexivity.
Defined.

Section Order.
Context {U : Unicode} {A : Arith}.

Lemma Zsum_Permutation (l1 l2 : list Z) : l1 ≡ₚ l2 → Zsum l1 = Zsum l2.
Proof. induction 1; simpl; lia. Qed.

Lemma occurrences_concat (t : str) (rows : list (list str)) :
  occurrences t (concat rows) = Zsum (occurrences t <$> rows).
Proof.
  induction rows as [|row rows IH]; csimpl; [done|].
  by rewrite occurrences_app, IH.
Qed.

Lemma labelled_Permutation (L : str) (train1 train2 : list (str * str)) :
  train1 ≡ₚ train2 → labelled L train1 ≡ₚ labelled L train2.
Proof. intros Hperm. unfold labelled, examples. by rewrite Hperm. Qed.

Lemma Vocabulary_Permutation (train1 train2 : list (str * str)) :
  train1 ≡ₚ train2 → Vocabulary train1 = Vocabulary train2.
Proof.
  intros Hperm. unfold Vocabulary. apply set_eq. intros w.
  rewrite !elem_of_list_to_set, !elem_of_concat.
  assert (Hrows : (examples train1).*2 ≡ₚ (examples train2).*2)
    by (unfold examples; by rewrite Hperm).
  split; intros (row & Hw & Hrow); exists row; split; try done.
  - by rewrite <- Hrows.
  - by rewrite Hrows.
Qed.

Lemma quantities_Permutation (alpha : Z) (train1 train2 : list (str * str))
    (L : str) :
  train1 ≡ₚ train2 →
  prior train1 L = prior train2 L ∧
  ∀ t, likelihood alpha train1 L t = likelihood alpha train2 L t.
Proof.
  intros Hperm. pose proof (labelled_Permutation L _ _ Hperm) as Hlab.
  split.
  - unfold prior, example_count.
    by rewrite (Permutation_length Hlab), (Permutation_length Hperm).
  - intros t. unfold likelihood, token_count, total_tokens.
    rewrite !occurrences_concat, (Vocabulary_Permutation _ _ Hperm).
    f_equal; f_equal; apply Zsum_Permutation; by rewrite Hlab.
Qed.

Lemma trained_unique (alpha : Z) (train : list (str * str)) (M1 M2 : Model) :
  trained alpha train M1 → trained alpha train M2 → M1 = M2.
Proof.
  intros (Hh1 & Hs1 & Hph1 & Hps1) (Hh2 & Hs2 & Hph2 & Hps2).
  destruct M1 as [h1 s1 ph1 ps1], M2 as [h2 s2 ph2 ps2]. simpl in *.
  f_equal; try congruence.
  - apply map_eq. intros t. by rewrite Hph1, Hph2.
  - apply map_eq. intros t. by rewrite Hps1, Hps2.
Qed.

Lemma trained_Permutation (alpha : Z) (train1 train2 : list (str * str))
    (M : Model) :
  train1 ≡ₚ train2 → trained alpha train1 M → trained alpha train2 M.
Proof.
  intros Hperm (Hh & Hs & Hph & Hps).
  destruct (quantities_Permutation alpha _ _ (py "ham") Hperm) as [Hp1 Hl1].
  destruct (quantities_Permutation alpha _ _ (py "spam") Hperm) as [Hp2 Hl2].
  unfold trained. rewrite <- Hp1, <- Hp2, <- (Vocabulary_Permutation _ _ Hperm).
  split; [done|]. split; [done|].
  split; intros t; [rewrite Hph, Hl1 | rewrite Hps, Hl2]; done.
Qed.

End Order.

(** X7: training does not depend on the order of the training examples:
    two collections with the same rows in a different order give the same
    outcome, the same model or the same failure.  This holds in every
    arithmetic, since all counts are integers. *)
Theorem training_ignores_the_order_of_examples {U : Unicode} {A : Arith}
    (alpha : Z) (train1 train2 : list (str * str)) :
  train1 ≡ₚ train2 → fit alpha train1 = fit alpha train2.
Proof.
  intros Hperm. destruct train1 as [|ex train1].
  - apply Permutation_nil_l in Hperm as ->. done.
  - destruct (fit_total alpha (ex :: train1)) as (M1 & Hfit1 & HM1); [done|].
    destruct (fit_total alpha train2) as (M2 & Hfit2 & HM2).
    { intros ->. by apply Permutation_nil_r in Hperm. }
    rewrite Hfit1, Hfit2. f_equal.
    apply (trained_unique alpha train2); [|done].
    by apply (trained_Permutation alpha (ex :: train1)).
Qed.

Lemma training_ignores_the_order_of_examples_witness :
  sample ≡ₚ reverse sample ∧
  fit (A := binary64) alpha_notebook sample
  = fit alpha_notebook (reverse sample).
Proof.
  assert (Hperm : sample ≡ₚ reverse sample)
    by (symmetry; apply reverse_Permutation).
  split; [exact Hperm|].
  exact (training_ignores_the_order_of_examples alpha_notebook _ _ Hperm).
Defined.

(** ** More in exact rational arithmetic *)

Lemma Q_quotient_bounds (a d : Z) :
  0 < a → a ≤ d → (0 < inject_Z a / inject_Z d ∧ inject_Z a / inject_Z d <= 1)%Q.
Proof.
  intros Ha Hd. destruct d as [|p|p]; try lia.
  unfold Qdiv, Qinv, Qmult, Qlt, Qle, inject_Z. simpl. lia.
Qed.

Lemma Q_quotient_nonneg (a d : Z) :
  0 ≤ a → 0 ≤ d → (0 <= inject_Z a / inject_Z d)%Q.
Proof.
  intros Ha Hd. destruct d as [|p|p]; try lia;
    unfold Qdiv, Qinv, Qmult, Qle, inject_Z; simpl; lia.
Qed.

Section Bounds.
Context {U : Unicode}.

Lemma token_count_bounds (train : list (str * str)) (L t : str) :
  0 ≤ token_count train L t ≤ total_tokens train L.
Proof.
  rewrite total_tokens_concat. unfold token_count, occurrences.
  pose proof (length_filter (λ x, x = t) (concat (labelled L train))). lia.
Qed.

Lemma example_count_le (train : list (str * str)) (L : str) :
  example_count train L ≤ Z.of_nat (length train).
Proof.
  unfold example_count, labelled. rewrite length_fmap.
  etransitivity; [apply inj_le, length_filter|].
  unfold examples. rewrite length_fmap. lia.
Qed.

Lemma likelihood_bounds (alpha : Z) (train : list (str * str)) (L t : str) :
  0 < alpha → t ∈ Vocabulary train →
  (0 < likelihood (A := Q_arith) alpha train L t ∧
   likelihood (A := Q_arith) alpha train L t <= 1)%Q.
Proof.
  intros Halpha Ht. unfold likelihood. simpl.
  pose proof (token_count_bounds train L t) as Hc.
  assert (size (Vocabulary train) ≠ 0%nat).
  { apply size_non_empty_iff. intros Hempty. by rewrite Hempty in Ht. }
  apply Q_quotient_bounds; nia.
Qed.

Lemma foldl_Qmult (a : Q) (l : list Q) : (foldl Qmult a l == a * Qprod l)%Q.
Proof.
  revert a. induction l as [|q l IH]; intros a; simpl; [ring|].
  rewrite IH. ring.
Qed.

Lemma score_product (alpha : Z) (train : list (str * str)) (L message : str) :
  (score (A := Q_arith) alpha train L message
   == prior train L
      * Qprod (likelihood alpha train L
                 <$> filter (λ t, t ∈ Vocabulary train) (tokenize message)))%Q.
Proof. unfold score. apply foldl_Qmult. Qed.

Lemma scores_trained (alpha : Z) (train : list (str * str))
    (M : @Model Q_arith) (message : str) :
  fit alpha train = Ok M →
  scores M message = (score alpha train (py "ham") message,
                      score alpha train (py "spam") message).
Proof.
  intros Hfit. apply fit_inv in Hfit as [_ HM].
  unfold scores, score. rewrite (foldl_adjust alpha train M HM).
  by destruct HM as (-> & -> & _).
Qed.

End Bounds.

(** X8: with a positive smoothing constant every likelihood stored in a
    trained model is a probability: strictly positive, also for a word
    never seen under the label, and at most 1. *)
Theorem likelihoods_are_probabilities {U : Unicode} (alpha : Z)
    (train : list (str * str)) (M : @Model Q_arith) (t : str) (p : Q) :
  fit alpha train = Ok M →
  0 < alpha →
  parameters_ham M !! t = Some p ∨ parameters_spam M !! t = Some p →
  (0 < p ∧ p <= 1)%Q.
Proof.
  intros Hfit Halpha Hp. apply fit_inv in Hfit as (_ & _ & _ & Hph & Hps).
  rewrite Hph, Hps in Hp.
  destruct (decide (t ∈ Vocabulary train)) as [Ht|Ht];
    [|by destruct Hp].
  destruct Hp as [[= <-]|[= <-]]; by apply likelihood_bounds.
Qed.

Lemma likelihoods_are_probabilities_witness :
  fit alpha_notebook sample = Ok sample_model ∧
  0 < alpha_notebook ∧
  parameters_spam sample_model !! py "hello" = Some (1 # 12)%Q ∧
  (0 < 1 # 12 ∧ 1 # 12 <= 1)%Q.
Proof.
  assert (Hfit : fit alpha_notebook sample = Ok sample_model)
    by (vm_compute; reflexivity).
  assert (Halpha : 0 < alpha_notebook) by reflexivity.
  assert (Hp : parameters_spam sample_model !! py "hello" = Some (1 # 12)%Q)
    by (vm_compute; reflexivity).
  split; [exact Hfit|]. split; [exact Halpha|]. split; [exact Hp|].
  exact (likelihoods_are_probabilities alpha_notebook sample sample_model
           (py "hello") (1 # 12)%Q Hfit Halpha (or_intror Hp)).
Defined.

(** ** The signs of the scores *)

#[export] Instance Q_sign : ArithSign Q_arith.
Proof.
  refine (@Build_ArithSign Q_arith (λ x, Qeq_bool x 0) (λ x, Qle_bool 0 x)
            _ _ _ _ _).
  - intros b. apply Qeq_bool_iff. simpl. unfold Qdiv. ring.
  - intros x y Hx. apply Qeq_bool_iff in Hx. apply Qeq_bool_iff.
    simpl. rewrite Hx. ring.
  - intros a b Ha Hb. apply Qle_bool_iff. simpl. by apply Q_quotient_nonneg.
  - intros x y Hx Hy. apply Qle_bool_iff in Hx, Hy. apply Qle_bool_iff.
    simpl. by apply Qmult_le_0_compat.
  - intros x y Hx Hy. apply Qeq_bool_iff in Hx. apply Qle_bool_iff in Hy.
    simpl. apply negb_false_iff, Qle_bool_iff. by rewrite Hx.
Defined.

Lemma binary_round_aux_sign (sx : bool) (mx ex : Z) (lx : location) :
  SF_not_negative (binary_round_aux prec emax sx mx ex lx) = true ∨
  sx = true.
Proof.
  unfold binary_round_aux.
  destruct (shr_fexp prec emax mx ex lx) as [mrs' e'].
  destruct (shr_fexp prec emax _ e' loc_Exact) as [mrs'' e''].
  destruct (shr_m mrs'') as [|m|m]; [| |by left].
  - destruct sx; [by right | by left].
  - destruct (e'' <=? emax - prec); destruct sx; (by right) || by left.
Qed.

Lemma float_of_Z_not_negative (a : Z) :
  0 ≤ a → SF_not_negative (Prim2SF (float_of_Z a)) = true.
Proof.
  intros Ha. destruct a as [|p|p]; [reflexivity| |lia].
  unfold float_of_Z. rewrite of_uint63_spec. unfold binary_normalize.
  destruct (Uint63.to_Z (Uint63.of_Z (Z.pos p))) as [|m|m] eqn:Hm.
  - reflexivity.
  - unfold binary_round. destruct (shl_align _ _ _) as [mz ez].
    by destruct (binary_round_aux_sign false (Z.pos mz) ez loc_Exact).
  - pose proof (Uint63.to_Z_bounded (Uint63.of_Z (Z.pos p))). lia.
Qed.

Lemma SFdiv_not_negative (x y : spec_float) :
  SF_not_negative x = true → SF_not_negative y = true →
  SF_not_negative (SFdiv prec emax x y) = true.
Proof.
  destruct x as [sx|sx| |sx mx ex], y as [sy|sy| |sy my ey]; simpl;
    try done.
  all: try (by destruct sx, sy).
  intros Hx Hy. apply negb_true_iff in Hx as ->. apply negb_true_iff in Hy as ->.
  destruct (SFdiv_core_binary prec emax (Z.pos mx) ex (Z.pos my) ey)
    as [[mz ez] lz].
  by destruct (binary_round_aux_sign (xorb false false) mz ez lz).
Qed.

Lemma SFmul_not_negative (x y : spec_float) :
  SF_not_negative x = true → SF_not_negative y = true →
  SF_not_negative (SFmul prec emax x y) = true.
Proof.
  destruct x as [sx|sx| |sx mx ex], y as [sy|sy| |sy my ey]; simpl;
    try done.
  all: try (by destruct sx, sy).
  intros Hx Hy. apply negb_true_iff in Hx as ->. apply negb_true_iff in Hy as ->.
  by destruct (binary_round_aux_sign (xorb false false) (Z.pos (mx * my))
                 (ex + ey) loc_Exact).
Qed.

#[export] Instance binary64_sign : ArithSign binary64.
Proof.
  refine (@Build_ArithSign binary64
            (λ x, SF_null (Prim2SF x)) (λ x, SF_not_negative (Prim2SF x))
            _ _ _ _ _).
  - intros b. simpl. rewrite FloatAxioms.div_spec.
    change (Prim2SF (float_of_Z 0)) with (S754_zero false).
    by destruct (Prim2SF (float_of_Z b)).
  - intros x y. simpl. rewrite FloatAxioms.mul_spec.
    by destruct (Prim2SF x), (Prim2SF y).
  - intros a b Ha Hb. simpl. rewrite FloatAxioms.div_spec.
    apply SFdiv_not_negative; by apply float_of_Z_not_negative.
  - intros x y. simpl. rewrite FloatAxioms.mul_spec. apply SFmul_not_negative.
  - intros x y. simpl. rewrite FloatAxioms.ltb_spec. unfold SFltb.
    destruct (Prim2SF x) as [sx|sx| |sx mx ex],
             (Prim2SF y) as [sy|sy| |sy my ey]; simpl; try done.
    all: by destruct sy.
Defined.

Section Signs.
Context {U : Unicode} {A : Arith} {S : ArithSign A}.

Lemma foldl_mul_null (x : num) (l : list num) :
  null x = true → null (foldl mul x l) = true.
Proof.
  revert x. induction l as [|y l IH]; intros x Hx; simpl; [done|].
  by apply IH, mul_null.
Qed.

Lemma foldl_mul_not_negative (x : num) (l : list num) :
  not_negative x = true → Forall (λ y, not_negative y = true) l →
  not_negative (foldl mul x l) = true.
Proof.
  intros Hx Hl. revert x Hx.
  induction Hl as [|y l Hy _ IH]; intros x Hx; simpl; [done|].
  by apply IH, mul_not_negative.
Qed.

Lemma total_tokens_nonneg (train : list (str * str)) (L : str) :
  0 ≤ total_tokens train L.
Proof.
  unfold total_tokens. induction (labelled L train) as [|row rows IH];
    csimpl; lia.
Qed.

Lemma score_not_negative (alpha : Z) (train : list (str * str))
    (L message : str) :
  0 ≤ alpha → not_negative (score alpha train L message) = true.
Proof.
  intros Halpha. unfold score. apply foldl_mul_not_negative.
  - unfold prior, example_count. apply true_div_not_negative; lia.
  - apply Forall_fmap, Forall_forall. intros t _. simpl. unfold likelihood.
    pose proof (total_tokens_nonneg train L).
    apply true_div_not_negative; [unfold token_count, occurrences|]; nia.
Qed.

Lemma score_null (alpha : Z) (train : list (str * str)) (L message : str) :
  example_count train L = 0 → null (score alpha train L message) = true.
Proof.
  intros Hzero. unfold score. apply foldl_mul_null.
  unfold prior. rewrite Hzero. apply true_div_null.
Qed.

End Signs.

(** X9: spam is answered only by a model that has seen spam.  A model
    trained, with a smoothing constant that is not negative, on a
    collection without any spam example answers ham on every message; its
    spam score is zero or not a number.  This holds in exact arithmetic
    and in binary64, with every integer of the training within the range
    of [int64]. *)
Theorem spam_answer_needs_a_spam_example {U : Unicode} {A : Arith}
    {S : ArithSign A} (alpha : Z) (train : list (str * str)) (M : Model) :
  fit alpha train = Ok M →
  0 ≤ alpha →
  total_tokens train (py "ham") + total_tokens train (py "spam")
    + alpha * (Z.of_nat (size (Vocabulary train)) + 1) < 2 ^ 62 →
  example_count train (py "spam") = 0 →
  ∀ message : str,
    null (scores M message).2 = true ∧ classify M message = py "ham".
Proof.
  intros Hfit Halpha _ Hzero message.
  apply fit_inv in Hfit as [_ HM].
  assert (Hscores : scores M message
                    = (score alpha train (py "ham") message,
                       score alpha train (py "spam") message)).
  { unfold scores, score. rewrite (foldl_adjust alpha train M HM).
    by destruct HM as (-> & -> & _). }
  unfold classify. rewrite Hscores. simpl.
  split; [by apply score_null|].
  rewrite gt_null; [done | by apply score_null | by apply score_not_negative].
Qed.

Lemma spam_answer_needs_a_spam_example_witness :
  let train := [(py "ham", py "see you"); (py "ham", py "call me")] in
  ∃ M : @Model binary64,
    fit alpha_notebook train = Ok M ∧
    0 ≤ alpha_notebook ∧
    total_tokens train (py "ham") + total_tokens train (py "spam")
      + alpha_notebook * (Z.of_nat (size (Vocabulary train)) + 1) < 2 ^ 62 ∧
    example_count train (py "spam") = 0 ∧
    classify M (py "WIN a prize, call now") = py "ham".
Proof.
  intros train.
  destruct (fit (A := binary64) alpha_notebook train)
    as [M|e] eqn:Hfit; [|vm_compute in Hfit; discriminate Hfit].
  assert (Halpha : 0 ≤ alpha_notebook) by (vm_compute; discriminate).
  assert (Hrange :
    total_tokens train (py "ham") + total_tokens train (py "spam")
      + alpha_notebook * (Z.of_nat (size (Vocabulary train)) + 1) < 2 ^ 62)
    by (vm_compute; reflexivity).
  assert (Hzero : example_count train (py "spam") = 0) by reflexivity.
  exists M. split; [reflexivity|]. split; [exact Halpha|].
  split; [exact Hrange|]. split; [exact Hzero|].
  exact (proj2 (spam_answer_needs_a_spam_example alpha_notebook train M
                  Hfit Halpha Hrange Hzero (py "WIN a prize, call now"))).
Defined.

(** The converse fails in binary64: trained on spam alone, a long message
    drives the spam score to zero, where it ties with the ham score, and
    the answer is ham, a label without any example.  In exact arithmetic
    the answer is spam. *)
Example ham_answer_without_a_ham_example :
  let message := mjoin (replicate 1100 (py "yo ")) in
  example_count spam_only (py "ham") = 0 ∧
  fit (A := binary64) alpha_notebook spam_only = Ok spam_only_binary64 ∧
  scores spam_only_binary64 message = (0%float, 0%float) ∧
  classify spam_only_binary64 message = py "ham" ∧
  classify spam_only_binary64 (py "yo") = py "spam" ∧
  classify spam_only_model message = py "spam".
Proof. vm_compute. repeat split; reflexivity. Qed.

(** X10: the answer depends on the message only through the sequence of
    its tokens that are in the vocabulary: two messages with the same
    such sequence (they differ in letter case, in punctuation, in the
    words the training has not seen) get the same two scores and the same
    label, in every arithmetic. *)
Theorem classification_reads_the_known_tokens {U : Unicode} {A : Arith}
    (alpha : Z) (train : list (str * str)) (M : Model) (m1 m2 : str) :
  fit alpha train = Ok M →
  filter (λ t, t ∈ Vocabulary train) (tokenize m1)
    = filter (λ t, t ∈ Vocabulary train) (tokenize m2) →
  scores M m1 = scores M m2 ∧ classify M m1 = classify M m2.
Proof.
  intros Hfit Hsame. apply fit_inv in Hfit as [_ HM].
  assert (Hscores : scores M m1 = scores M m2).
  { unfold scores. rewrite !(foldl_adjust alpha train M HM). by rewrite Hsame. }
  split; [exact Hscores|]. unfold classify. by rewrite Hscores.
Qed.

Lemma classification_reads_the_known_tokens_witness :
  fit alpha_notebook sample = Ok sample_model ∧
  filter (λ t, t ∈ Vocabulary sample) (tokenize (py "win a prize, dude"))
    = filter (λ t, t ∈ Vocabulary sample) (tokenize (py "Oh! WIN... a PRIZE")) ∧
  classify sample_model (py "win a prize, dude")
  = classify sample_model (py "Oh! WIN... a PRIZE").
Proof.
  assert (Hfit : fit alpha_notebook sample = Ok sample_model)
    by (vm_compute; reflexivity).
  assert (Hsame :
    filter (λ t, t ∈ Vocabulary sample) (tokenize (py "win a prize, dude"))
      = filter (λ t, t ∈ Vocabulary sample)
          (tokenize (py "Oh! WIN... a PRIZE"))) by (vm_compute; reflexivity).
  split; [exact Hfit|]. split; [exact Hsame|].
  exact (proj2 (classification_reads_the_known_tokens
                  alpha_notebook sample sample_model _ _ Hfit Hsame)).
Defined.

(** The order of the known tokens is part of what is read: in binary64
    the products are rounded after every factor, and two messages with
    the same tokens in another order can get different labels. *)
Example token_order_can_change_the_answer :
  fit (A := binary64) alpha_notebook close_call = Ok close_call_binary64 ∧
  tokenize (py "a g b") ≡ₚ tokenize (py "g a b") ∧
  scores close_call_binary64 (py "a g b")
  = (0x1.af83440e53dbbp-11%float, 0x1.af83440e53dbcp-11%float) ∧
  scores close_call_binary64 (py "g a b")
  = (0x1.af83440e53dbcp-11%float, 0x1.af83440e53dbcp-11%float) ∧
  classify close_call_binary64 (py "a g b") = py "spam" ∧
  classify close_call_binary64 (py "g a b") = py "ham".
Proof.
  split; [vm_compute; reflexivity|]. split.
  - change (tokenize (py "a g b")) with ([py "a"; py "g"] ++ [py "b"]).
    change (tokenize (py "g a b")) with ([py "g"; py "a"] ++ [py "b"]).
    apply Permutation_app_tail, perm_swap.
  - vm_compute. repeat split; reflexivity.
Qed.

(** ** Labels other than spam and ham *)

Section OtherLabels.
Context {U : Unicode}.

Lemma label_counts (train : list (str * str)) :
  example_count train (py "spam") + example_count train (py "ham")
  + Z.of_nat (length (filter (λ ex, ex.1 ≠ py "spam" ∧ ex.1 ≠ py "ham") train))
  = Z.of_nat (length train).
Proof.
  unfold example_count, labelled, examples.
  induction train as [|[l text] train IH]; csimpl; [done|].
  rewrite !filter_cons. csimpl.
  destruct (decide (l = py "spam")) as [->|Hs].
  - rewrite decide_False by done.
    rewrite (decide_False (P := _ ∧ _)) by (intros [? _]; done). csimpl. lia.
  - destruct (decide (l = py "ham")) as [->|Hh].
    + rewrite (decide_False (P := _ ∧ _)) by (intros [_ ?]; done). csimpl. lia.
    + rewrite (decide_True (P := _ ∧ _)) by done. csimpl. lia.
Qed.

Lemma no_other_label (train : list (str * str)) :
  length (filter (λ ex, ex.1 ≠ py "spam" ∧ ex.1 ≠ py "ham") train) = 0%nat ↔
  Forall (λ ex, ex.1 = py "spam" ∨ ex.1 = py "ham") train.
Proof.
  induction train as [|[l text] train IH]; [done|].
  rewrite filter_cons, Forall_cons, <- IH. simpl.
  destruct (decide (l ≠ py "spam" ∧ l ≠ py "ham")) as [[Hs Hh]|Hlabel]; simpl.
  - split; [done|]. intros [[?|?] _]; done.
  - split; [|by intros [_ ?]]. intros Hlen. split; [|done].
    destruct (decide (l = py "spam")); [by left|].
    destruct (decide (l = py "ham")); [by right|]. exfalso. by apply Hlabel.
Qed.

End OtherLabels.

(** X11: training rejects no label.  An example labelled neither spam nor
    ham is counted in the number of rows but in neither class, so the two
    priors add up to the share of the rows labelled spam or ham; they add
    up to 1 exactly when every example is labelled spam or ham. *)
Theorem other_labels_lower_the_priors {U : Unicode} (alpha : Z)
    (train : list (str * str)) (M : @Model Q_arith) :
  fit alpha train = Ok M →
  (p_spam M + p_ham M
   == inject_Z (Z.of_nat (length train)
                - Z.of_nat (length (filter (λ ex, ex.1 ≠ py "spam"
                                                  ∧ ex.1 ≠ py "ham") train)))
      / inject_Z (Z.of_nat (length train)))%Q ∧
  ((p_spam M + p_ham M == 1)%Q ↔
   Forall (λ ex, ex.1 = py "spam" ∨ ex.1 = py "ham") train).
Proof.
  intros Hfit. apply fit_inv in Hfit as (Hne & Hh & Hs & _).
  pose proof (label_counts train) as Hcounts.
  set (other := length (filter (λ ex, ex.1 ≠ py "spam" ∧ ex.1 ≠ py "ham") train))
    in *.
  assert (Hsum : (p_spam M + p_ham M
                  == inject_Z (Z.of_nat (length train) - Z.of_nat other)
                     / inject_Z (Z.of_nat (length train)))%Q).
  { rewrite Hh, Hs. unfold prior. simpl.
    unfold Qdiv. rewrite <- Qmult_plus_distr_l, <- inject_Z_plus.
    by replace (example_count train (py "spam") + example_count train (py "ham"))
      with (Z.of_nat (length train) - Z.of_nat other) by lia. }
  split; [exact Hsum|].
  rewrite Hsum, <- no_other_label. fold other.
  assert (Hn : 0 < Z.of_nat (length train)) by (destruct train; simpl; [done|lia]).
  destruct (Z.of_nat (length train)) as [|n|n] eqn:Hlen; try lia.
  unfold Qeq, Qdiv, Qinv, Qmult, inject_Z. simpl. split; intros; lia.
Qed.

Lemma other_labels_lower_the_priors_witness :
  ∃ M : @Model Q_arith,
    fit alpha_notebook [(py "ham", py "hi"); (py "junk", py "yo")] = Ok M ∧
    (p_spam M + p_ham M == 1 # 2)%Q.
Proof.
  destruct (fit (A := Q_arith) alpha_notebook
              [(py "ham", py "hi"); (py "junk", py "yo")])
    as [M|e] eqn:Hfit; [|vm_compute in Hfit; discriminate Hfit].
  exists M. split; [reflexivity|].
  rewrite (proj1 (other_labels_lower_the_priors alpha_notebook _ M Hfit)).
  reflexivity.
Defined.

(** ** The evaluation cells *)

Section EvaluationFacts.
Context {U : Unicode} {A : Arith}.

Lemma classify_spam_or_ham (M : Model) (message : str) :
  classify M message = py "spam" ∨ classify M message = py "ham".
Proof.
  unfold classify. destruct (scores M message) as [h s].
  destruct (gt s h); [by left | by right].
Qed.

Lemma select_two_values (test : list (str * str * str))
    (f g : str * str * str → str) (a b : str) :
  select (and_mask (eq_value (f <$> test) a) (eq_value (g <$> test) b)) test
  = filter (λ row, f row = a ∧ g row = b) test.
Proof.
  unfold and_mask, eq_value.
  induction test as [|row test IH]; csimpl; [done|].
  rewrite filter_cons, IH.
  destruct (decide (f row = a)), (decide (g row = b)).
  - rewrite !bool_decide_eq_true_2 by done. by rewrite decide_True by done.
  - rewrite (bool_decide_eq_false_2 (g row = b)) by done.
    rewrite andb_false_r. rewrite decide_False by (by intros [_ ?]). done.
  - rewrite (bool_decide_eq_false_2 (f row = a)) by done.
    rewrite decide_False by (by intros [? _]). done.
  - rewrite (bool_decide_eq_false_2 (f row = a)) by done.
    rewrite decide_False by (by intros [? _]). done.
Qed.

Lemma correct_filter (test : list (str * str * str)) :
  correct test = Z.of_nat (length (filter (λ row, row.2 = row.1.1) test)).
Proof.
  unfold correct, count_true, eq_columns, prediction_of, Label_of.
  induction test as [|row test IH]; csimpl; [done|].
  rewrite filter_cons, IH.
  destruct (decide (row.2 = row.1.1)).
  - rewrite bool_decide_eq_true_2 by done. csimpl. lia.
  - rewrite bool_decide_eq_false_2 by done. csimpl. lia.
Qed.

Lemma confusion_filters (test : list (str * str * str)) :
  Forall (λ row, row.2 = py "spam" ∨ row.2 = py "ham") test →
  let count (P : str * str * str → Prop) `{∀ row, Decision (P row)} :=
    Z.of_nat (length (filter P test)) in
  count (λ row, row.1.1 = py "spam" ∧ row.2 = py "spam")
  + count (λ row, row.1.1 = py "ham" ∧ row.2 = py "ham")
  = count (λ row, row.2 = row.1.1) ∧
  count (λ row, row.2 = row.1.1)
  + count (λ row, row.2 = py "spam" ∧ row.1.1 = py "ham")
  + count (λ row, row.2 = py "ham" ∧ row.1.1 = py "spam")
  + count (λ row, row.1.1 ≠ py "spam" ∧ row.1.1 ≠ py "ham")
  = Z.of_nat (length test).
Proof.
  intros Hpred. simpl.
  induction Hpred as [|[[l text] pr] test Hrow _ [IH1 IH2]]; [done|].
  rewrite !filter_cons. simpl in *.
  assert (Hsh := @spam_is_not_ham).
  destruct Hrow as [-> | ->];
    (destruct (decide (l = py "spam")) as [->|Hs];
     [|destruct (decide (l = py "ham")) as [->|Hh]]).
  all: repeat (case_decide; try (exfalso; intuition congruence)).
  all: simpl length; split; lia.
Qed.

End EvaluationFacts.

(** X12: the confusion counts of the evaluation cells.  Whatever the model
    and the test frame, the true positives and true negatives are exactly
    the rows counted as correct, and the correct rows, the false
    positives, the false negatives and the rows labelled neither spam nor
    ham partition the test frame.  Every false positive is a row labelled
    ham that [classify] labels spam, every false negative a row labelled
    spam that [classify] labels ham. *)
Theorem confusion_counts_partition_the_test_frame {U : Unicode} {A : Arith}
    (M : Model) (test : list (str * str)) :
  length (predict M test) = length test ∧
  Z.of_nat (length (true_positives (predict M test)))
  + Z.of_nat (length (true_negatives (predict M test)))
  = correct (predict M test) ∧
  correct (predict M test)
  + Z.of_nat (length (false_positives (predict M test)))
  + Z.of_nat (length (false_negatives (predict M test)))
  + Z.of_nat (length (filter (λ row, row.1 ≠ py "spam" ∧ row.1 ≠ py "ham") test))
  = Z.of_nat (length test) ∧
  Forall (λ row, row.1.1 = py "ham" ∧ classify M row.1.2 = py "spam"
                 ∧ row.2 = py "spam")
         (false_positives (predict M test)) ∧
  Forall (λ row, row.1.1 = py "spam" ∧ classify M row.1.2 = py "ham"
                 ∧ row.2 = py "ham")
         (false_negatives (predict M test)).
Proof.
  assert (Hframe : Forall (λ row : str * str * str,
                             row.2 = classify M row.1.2) (predict M test)).
  { unfold predict. apply Forall_fmap, Forall_forall. by intros row _. }
  assert (Hpred : Forall (λ row : str * str * str,
                            row.2 = py "spam" ∨ row.2 = py "ham")
                         (predict M test)).
  { eapply Forall_impl; [exact Hframe|]. intros row ->.
    apply classify_spam_or_ham. }
  assert (Hother :
    length (filter (λ row : str * str * str,
                      row.1.1 ≠ py "spam" ∧ row.1.1 ≠ py "ham") (predict M test))
    = length (filter (λ row : str * str, row.1 ≠ py "spam" ∧ row.1 ≠ py "ham")
                test)).
  { unfold predict. clear. induction test as [|row test IH]; csimpl; [done|].
    rewrite !filter_cons. simpl. case_decide; simpl; by rewrite IH. }
  destruct (confusion_filters (predict M test) Hpred) as [Hcorrect Hall].
  unfold true_positives, true_negatives, false_positives, false_negatives.
  unfold prediction_of, Label_of.
  rewrite <- !list_fmap_compose, !select_two_values, correct_filter.
  rewrite <- Hother.
  split; [unfold predict; by rewrite length_fmap|].
  split; [exact Hcorrect|]. split.
  - rewrite <- (length_fmap (λ row, (row.1, row.2, classify M row.2)) test).
    exact Hall.
  - rewrite Forall_forall in Hframe.
    split; apply Forall_forall; intros row Hrow;
      apply list_elem_of_filter in Hrow as [[Hp Hl] Hrow];
      simpl in *; rewrite <- (Hframe row Hrow); done.
Qed.

Example sample_confusion_counts :
  let frame := predict sample_model
                 [(py "spam", py "Win a PRIZE!"); (py "ham", py "See you there");
                  (py "ham", py "a prize for you"); (py "spam", py "hello")] in
  (correct frame, length (true_positives frame), length (true_negatives frame),
   length (false_positives frame), length (false_negatives frame))
  = (2, 1%nat, 1%nat, 1%nat, 1%nat).
Proof. vm_compute. reflexivity. Qed.

(** ** Duplicated rows *)










Example duplicated_flags_the_later_copies :
  duplicated [(py "ham", py "ok"); (py "spam", py "win"); (py "ham", py "ok");
              (py "ham", py "win"); (py "ham", py "ok")]
  = [false; false; true; false; true].
Proof. vm_compute. reflexivity. Qed.

(** ** The split into training and test rows *)

(** X14: whatever order the random generator draws, the cells "Randomize"
    and "Split" lose and repeat no row: the training rows followed by the
    test rows are the rows of the data set in some order, the first 4457
    of them (all of them for a smaller data set) are training rows, and
    for a data set that is not empty the training rows are not empty, so
    that training on them succeeds. *)
Theorem split_partitions_the_data_set
    (sample_frac_1 : list (str * str) → list (str * str))
    (df : list (str * str)) :
  (∀ rows, sample_frac_1 rows ≡ₚ rows) →
  (train_test_split sample_frac_1 df).1 ++ (train_test_split sample_frac_1 df).2
    ≡ₚ df ∧
  length (train_test_split sample_frac_1 df).1 = (length df `min` 4457)%nat ∧
  length (train_test_split sample_frac_1 df).2 = (length df - 4457)%nat ∧
  (df ≠ [] →
   ∀ (U : Unicode) (A : Arith) (alpha : Z),
     ∃ M, fit alpha (train_test_split sample_frac_1 df).1 = Ok M).
Proof.
  intros Hperm. unfold train_test_split. simpl.
  pose proof (Permutation_length (Hperm df)) as Hlen.
  split; [by rewrite take_drop|].
  split; [rewrite length_take; lia|].
  split; [rewrite length_drop; lia|].
  intros Hne U A alpha.
  destruct (fit_total alpha (take 4457 (sample_frac_1 df))) as (M & HM & _).
  - destruct (sample_frac_1 df) as [|row rows] eqn:Hrows; [|done].
    destruct df; [done|]. simpl in Hlen. lia.
  - by exists M.
Qed.

Lemma split_partitions_the_data_set_witness :
  (∀ rows : list (str * str), reverse rows ≡ₚ rows) ∧
  (train_test_split reverse sample).1 ++ (train_test_split reverse sample).2
    ≡ₚ sample.
Proof.
  assert (Hperm : ∀ rows : list (str * str), reverse rows ≡ₚ rows)
    by (intros rows; apply reverse_Permutation).
  split; [exact Hperm|].
  exact (proj1 (split_partitions_the_data_set reverse sample Hperm)).
Defined.

Lemma Qprod_le_1 (l : list Q) :
  Forall (λ q, 0 < q ∧ q <= 1)%Q l → (0 < Qprod l ∧ Qprod l <= 1)%Q.
Proof.
  induction 1 as [|q l Hq _ IH]; simpl.
  - split; [reflexivity | apply Qle_refl].
  - destruct Hq as [Hq0 Hq1], IH as [IHpos IHle].
    split; [by apply Qmult_lt_0_compat|].
    apply (Qle_trans _ (1 * 1)); [|discriminate].
    apply Qmult_le_compat_nonneg; split; try done; by apply Qlt_le_weak.
Qed.

(** X15: in exact arithmetic, with a positive smoothing constant, the two
    final scores of a trained model lie between 0 and the priors: every
    in-vocabulary token multiplies a score by a probability, so a longer
    message can only lower the scores (which is why long messages
    underflow in floating point). *)
Theorem scores_lie_between_zero_and_the_priors {U : Unicode} (alpha : Z)
    (train : list (str * str)) (M : @Model Q_arith) (message : str) :
  fit alpha train = Ok M →
  0 < alpha →
  (0 <= (scores M message).1 ∧ (scores M message).1 <= p_ham M ∧
   0 <= (scores M message).2 ∧ (scores M message).2 <= p_spam M)%Q.
Proof.
  intros Hfit Halpha.
  rewrite (scores_trained alpha train M message Hfit). simpl.
  pose proof Hfit as Hinv. apply fit_inv in Hinv as (Hne & Hh & Hs & _).
  rewrite Hh, Hs.
  assert (Hbound : ∀ L,
            (0 <= score alpha train L message ∧
             score alpha train L message <= prior train L)%Q).
  { intros L. rewrite score_product.
    assert (Hprior : (0 <= prior (A := Q_arith) train L)%Q).
    { unfold prior. simpl. apply Q_quotient_nonneg; unfold example_count; lia. }
    destruct (Qprod_le_1
                (likelihood (A := Q_arith) alpha train L
                   <$> filter (λ t, t ∈ Vocabulary train) (tokenize message)))
      as [Hpos Hle].
    { apply Forall_fmap, Forall_forall. intros t Ht.
      apply list_elem_of_filter in Ht as [Ht _]. by apply likelihood_bounds. }
    split.
    - apply Qmult_le_0_compat; [done | by apply Qlt_le_weak].
    - apply (Qle_trans _ (prior (A := Q_arith) train L * 1));
        [|rewrite Qmult_1_r; apply Qle_refl].
      apply Qmult_le_compat_nonneg; split; try done;
        [apply Qle_refl | by apply Qlt_le_weak]. }
  destruct (Hbound (py "ham")), (Hbound (py "spam")). done.
Qed.

Lemma scores_lie_between_zero_and_the_priors_witness :
  fit alpha_notebook sample = Ok sample_model ∧
  0 < alpha_notebook ∧
  ((scores sample_model (py "see you there")).1 <= p_ham sample_model)%Q.
Proof.
  assert (Hfit : fit alpha_notebook sample = Ok sample_model)
    by (vm_compute; reflexivity).
  assert (Halpha : 0 < alpha_notebook) by reflexivity.
  split; [exact Hfit|]. split; [exact Halpha|].
  exact (proj1 (proj2 (scores_lie_between_zero_and_the_priors
                         alpha_notebook sample sample_model
                         (py "see you there") Hfit Halpha))).
Defined.
